(** * The CFS bypass client: request routing and descriptor virtualisation

    A shallow embedding of [client/bypass/include/client.h]: the lexical
    path cleaner and the path classifier ([get_clean_path], [cat_path],
    [get_cfs_path]), the error translators ([cfs_errno],
    [cfs_errno_ssize_t]), the descriptor registry ([fd_in_cfs],
    [get_cfs_fd], [dup_fd], [get_open_file]), the hybrid read
    ([cfs_pread_sock]), the configuration handler ([config_handler]) and
    the test of the libc version ([has_renameat2]).

    Conventions.
    - A C string is the list of its characters before the terminating NUL;
      a [char *] that may be [NULL] is an [option].
    - [int] is 32 bits, [ssize_t] and [size_t] are 64 bits (the LP64 glibc
      targets the client is built for); values are kept in [Z] and every
      conversion between the types is written out.
    - The [int] indices and lengths of the path functions ([n], [r], [w],
      [dotdot], [len_result]) are natural numbers: a path is taken to be
      shorter than [INT_MAX].
    - [std::map] is a [gmap]; objects reached through pointers live in an
      explicit store indexed by their address. *)

From Stdlib Require Import ZArith Ascii String List Lia Bool.
From stdpp Require Import base gmap list.

(** ** Machine integers *)

Module CInt.
Local Open Scope Z_scope.

Definition INT_MAX : Z := 2 ^ 31 - 1.
Definition INT_MIN : Z := - 2 ^ 31.
Definition SSIZE_MAX : Z := 2 ^ 63 - 1.

(** Reduction of a mathematical integer to a signed [w]-bit one. *)
Definition wrap_signed (w : Z) (z : Z) : Z :=
  (z + 2 ^ (w - 1)) mod 2 ^ w - 2 ^ (w - 1).

Definition to_int (z : Z) : Z := wrap_signed 32 z.
Definition to_ssize_t (z : Z) : Z := wrap_signed 64 z.
Definition to_size_t (z : Z) : Z := z mod 2 ^ 64.

Definition is_int (z : Z) : Prop := INT_MIN <= z <= INT_MAX.
Definition is_ssize_t (z : Z) : Prop := - 2 ^ 63 <= z <= SSIZE_MAX.
End CInt.
Import CInt.

(** ** C strings *)

Abbreviation cstring := (list ascii).

Definition NUL : ascii := Ascii.zero.

(** [s[i]]: the character at index [i], the terminator at the end. *)
Definition char_at (s : cstring) (i : nat) : ascii := nth i s NUL.

(** A string literal as a C string. *)
Definition cstr (s : string) : cstring := list_ascii_of_string s.

(** ** Error translator *)

(** [errno] is the only piece of state the translators touch; they take the
    value it had and return the value it has afterwards. *)

(** [static int cfs_errno(int re)] *)
Definition cfs_errno (re : Z) (errno : Z) : Z * Z :=
  if (re <? 0)%Z then (-1, to_int (- re))%Z else (re, 0%Z).

(** [static ssize_t cfs_errno_ssize_t(ssize_t re)]: [-re] is computed in
    [ssize_t] and then stored into the [int] [errno]. *)
Definition cfs_errno_ssize_t (re : Z) (errno : Z) : Z * Z :=
  if (re <? 0)%Z then (-1, to_int (to_ssize_t (- re)))%Z else (re, 0%Z).

(** ** Descriptor registry *)

(** [#define CFS_FD_MASK (1 << (sizeof(int)*8 - 2))] *)
Definition CFS_FD_MASK : Z := Z.shiftl 1 (4 * 8 - 2).

(** Addresses of heap objects ([file_t *], [inode_info_t *]). *)
Abbreviation ptr := positive.

Record file_t := mk_file {
  fd : Z;
  flags : Z;
  pos : Z;
  dup_ref : Z;
  file_type : Z;
  inode_info : option ptr
}.

(** The part of [client_info_t] that the functions below read or write.
    [cwd] may be [NULL]; [mount_point] and [ignore_path] are set at start. *)
Record client_info_t := mk_client_info {
  dup_fds : gmap Z Z;
  open_files : gmap Z ptr;
  cwd : option cstring;
  in_cfs : bool;
  mount_point : cstring;
  ignore_path : cstring
}.

(** The [file_t] objects that [open_files] points to. Two descriptors of
    the table may hold the same address. *)
Abbreviation file_store := (gmap ptr file_t).

(** [bool fd_in_cfs(int fd)] *)
Definition fd_in_cfs (g : client_info_t) (fd : Z) : bool :=
  match dup_fds g !! fd with
  | Some _ => true
  | None => if (Z.land fd CFS_FD_MASK =? 0)%Z then false else true
  end.

(** [int get_cfs_fd(int fd)] *)
Definition get_cfs_fd (g : client_info_t) (fd : Z) : Z :=
  match dup_fds g !! fd with
  | Some second => second
  | None =>
      if (Z.land fd CFS_FD_MASK =? 0)%Z then (-1)%Z
      else Z.land fd (Z.lnot CFS_FD_MASK)
  end.

(** [it->second->dup_ref++] on an [int] field. *)
Definition incr_dup_ref (f : file_t) : file_t :=
  mk_file (fd f) (flags f) (pos f) (to_int (dup_ref f + 1)) (file_type f)
          (inode_info f).

Definition set_dup_fds (g : client_info_t) (m : gmap Z Z) : client_info_t :=
  mk_client_info m (open_files g) (cwd g) (in_cfs g) (mount_point g)
                 (ignore_path g).

(** [int dup_fd(int oldfd, int newfd)]; the read lock taken around the
    lookup has no effect on a single thread and is left out. [alter]
    leaves the store alone at an address that holds no [file_t], where
    the source would go through an invalid pointer. *)
Definition dup_fd (oldfd newfd : Z) (g : client_info_t) (h : file_store)
  : Z * client_info_t * file_store :=
  match open_files g !! oldfd with
  | None => ((-1)%Z, g, h)
  | Some p =>
      (newfd, set_dup_fds g (<[newfd := oldfd]> (dup_fds g)),
       alter incr_dup_ref p h)
  end.

(** [file_t *get_open_file(int fd)] *)
Definition get_open_file (g : client_info_t) (fd : Z) : option ptr :=
  open_files g !! fd.

(** ** String functions of the C library *)

(** [strncmp(s1, s2, n) == 0] *)
Fixpoint strncmp_eq (s1 s2 : cstring) (n : nat) {struct n} : bool :=
  match n with
  | 0 => true
  | S n' =>
      match s1, s2 with
      | [], [] => true
      | c1 :: t1, c2 :: t2 => Ascii.eqb c1 c2 && strncmp_eq t1 t2 n'
      | _, _ => false
      end
  end.

(** The tokens that [strtok(s, delim)] followed by [strtok(NULL, delim)]
    hands out until it returns [NULL]: the maximal non-empty runs of
    characters other than [delim]. [tok] is the token being scanned. *)
Fixpoint strtok_from (delim : ascii) (s tok : cstring) : list cstring :=
  match s with
  | [] => match tok with [] => [] | _ => [tok] end
  | c :: s' =>
      if Ascii.eqb c delim then
        match tok with
        | [] => strtok_from delim s' []
        | _ => tok :: strtok_from delim s' []
        end
      else strtok_from delim s' (tok ++ [c])
  end.

Definition strtok_all (delim : ascii) (s : cstring) : list cstring :=
  strtok_from delim s [].

(** ** Path cleaner *)

(** The allocations of the path functions, one flag per call site: [true]
    when [malloc]/[strdup] returns a buffer, [false] when it returns
    [NULL]. *)
Record alloc_t := mk_alloc {
  clean_ok : bool;   (* malloc in get_clean_path *)
  cat_ok : bool;     (* malloc in cat_path *)
  strdup_ok : bool;  (* strdup(ignore_path) in get_cfs_path *)
  result_ok : bool   (* malloc of the result in get_cfs_path *)
}.

Definition all_ok : alloc_t := mk_alloc true true true true.

(** [r == n || path[r] == '/'] for the suffix [rest = path + r]. *)
Definition at_elem_end (rest : cstring) : bool :=
  match rest with
  | [] => true
  | c :: _ => Ascii.eqb c "/"
  end.

(** [while(w > dotdot && out[w] != '/') w--;] *)
Fixpoint backtrack (out : cstring) (dotdot w : nat) : nat :=
  match w with
  | 0 => 0
  | S w' =>
      if (dotdot <? w) && negb (Ascii.eqb (char_at out w) "/")
      then backtrack out dotdot w'
      else w
  end.

(** [for(; r < n && path[r] != '/'; r++) out[w++] = path[r];] *)
Fixpoint copy_elem (rest out : cstring) : cstring * cstring :=
  match rest with
  | [] => ([], out)
  | c :: rest' =>
      if Ascii.eqb c "/" then (rest, out) else copy_elem rest' (out ++ [c])
  end.

(** The [while(r < n)] loop of [get_clean_path]. [rest] is [path + r];
    [out] holds the [w] bytes written so far, so [out[w++] = c] appends
    and lowering [w] truncates; every pass consumes at least one byte of
    [rest], and [fuel] bounds the number of passes. *)
Fixpoint clean_loop (fuel : nat) (rooted : bool) (rest out : cstring)
         (dotdot : nat) : option cstring :=
  match rest with
  | [] => Some out
  | c :: rest1 =>
      match fuel with
      | 0 => None
      | S fuel' =>
          if Ascii.eqb c "/" then
            (* empty path element *)
            clean_loop fuel' rooted rest1 out dotdot
          else if Ascii.eqb c "." && at_elem_end rest1 then
            (* . element *)
            clean_loop fuel' rooted rest1 out dotdot
          else if Ascii.eqb c "." && Ascii.eqb (hd NUL rest1) "."
                  && at_elem_end (tl rest1) then
            (* .. element: remove to last / *)
            let rest2 := tl rest1 in
            let w := length out in
            if dotdot <? w then
              let w' := backtrack out dotdot (w - 1) in
              clean_loop fuel' rooted rest2 (firstn w' out) dotdot
            else if negb rooted then
              let out1 := if 0 <? w then out ++ ["/"%char] else out in
              let out2 := out1 ++ ["."%char; "."%char] in
              clean_loop fuel' rooted rest2 out2 (length out2)
            else clean_loop fuel' rooted rest2 out dotdot
          else
            (* real path element *)
            let w := length out in
            let out1 :=
              if rooted && negb (w =? 1) || negb rooted && negb (w =? 0)
              then out ++ ["/"%char] else out in
            let '(rest', out2) := copy_elem rest out1 in
            clean_loop fuel' rooted rest' out2 dotdot
      end
  end.

(** [static char *get_clean_path(const char *path)]. The buffer is
    [malloc(n + 1)]; what is written is kept as a list that grows as
    needed, and [get_clean_path_length] below tells how far it grows: the
    result and its terminator fit the buffer for every path but the empty
    one, whose result ["."] takes two bytes where one was allocated. *)
Definition get_clean_path (malloc_ok : bool) (path : option cstring)
  : option cstring :=
  match path with
  | None => None
  | Some p =>
      let rooted := Ascii.eqb (char_at p 0) "/" in
      let n := length p in
      if negb malloc_ok then None
      else
        let '(rest, out, dotdot) :=
          if rooted then (skipn 1 p, ["/"%char], 1) else (p, [], 0) in
        match clean_loop n rooted rest out dotdot with
        | None => None
        | Some out' => Some (if length out' =? 0 then ["."%char] else out')
        end
  end.

(** [static char *cat_path(const char *cwd, const char *pathname)] *)
Definition cat_path (malloc_ok : bool) (cwd pathname : option cstring)
  : option cstring :=
  match cwd, pathname with
  | Some c, Some p => if negb malloc_ok then None else Some (c ++ "/"%char :: p)
  | _, _ => None
  end.

(** ** Path classifier *)

(** The [while(token != NULL)] loop over the ignore list. *)
Fixpoint ignore_loop (real_path : cstring) (len : nat)
         (tokens : list cstring) (is_cfs : bool) : bool :=
  match tokens with
  | [] => is_cfs
  | token :: tokens' =>
      let len_token := length token in
      if Ascii.eqb (char_at real_path len) "/"
         && strncmp_eq (skipn (len + 1) real_path) token len_token
         && (Ascii.eqb (char_at real_path (len + 1 + len_token)) NUL
             || Ascii.eqb (char_at real_path (len + 1 + len_token)) "/")
      then false
      else ignore_loop real_path len tokens' true
  end.

(** [static char *get_cfs_path(const char *pathname)]; [None] is [NULL]. *)
Definition get_cfs_path (g : client_info_t) (a : alloc_t)
           (pathname : option cstring) : option cstring :=
  match pathname with
  | None => None
  | Some p =>
      let absolute := Ascii.eqb (char_at p 0) "/" in
      if negb absolute && negb (in_cfs g) then None
      else
        match get_clean_path (clean_ok a) (Some p) with
        | None => None
        | Some real_path =>
            if negb absolute && in_cfs g then
              cat_path (cat_ok a) (cwd g) (Some real_path)
            else
              let len := length (mount_point g) in
              let len_real := length real_path in
              if negb (strdup_ok a) then None
              else
                let is_cfs :=
                  if strncmp_eq real_path (mount_point g) len then
                    if 0 <? length (ignore_path g) then
                      ignore_loop real_path len
                                  (strtok_all "," (ignore_path g)) false
                    else Ascii.eqb (char_at real_path len) NUL
                         || Ascii.eqb (char_at real_path len) "/"
                  else false in
                if negb is_cfs then None
                else
                  let len_result := len_real - len in
                  if negb (result_ok a) then None
                  else Some (if 0 <? len_result
                             then firstn len_result (skipn len real_path)
                             else ["/"%char])
        end
  end.

(** ** Hybrid read *)

(** Modelled from the spec: [cfs_read_req_t] is declared in [sdk.h], which
    is not among the sources. The fields are the ones [cfs_pread_sock]
    reads, the extent-location descriptor of the design (storage-node
    host and port, partition id, extent id, offset inside the extent,
    length, file offset); [size] is taken to be a [size_t]. *)
Record cfs_read_req_t := mk_req {
  file_offset : Z;
  size : Z;
  partition_id : Z;
  extent_id : Z;
  extent_offset : Z;
  dp_host : cstring;
  dp_port : Z
}.

(** What the collaborators answer during one call of [cfs_pread_sock]:
    the SDK ([cfs_read_requests], [cfs_pread]), the packet constructor,
    the connection pool and the socket. The answers of the per-descriptor
    calls are indexed by the position [i] of the descriptor. *)
Record sdk_t := mk_sdk {
  (* the returned [req_count], and the entries it stored in [req] *)
  cfs_read_requests : Z * list cfs_read_req_t;
  (* [new_read_packet(...) != NULL] *)
  new_read_packet : nat -> bool;
  (* [get_conn(pool, host, port)] *)
  get_conn : nat -> Z;
  (* [write_sock(sock_fd, p)] *)
  write_sock : nat -> Z;
  (* [get_read_reply(sock_fd, p)] *)
  get_read_reply : nat -> Z;
  (* [cfs_pread(id, fd, buf, count, offset)] *)
  cfs_pread : Z
}.

(** The calls that leave the function, in order. *)
Inductive event :=
| ev_read_requests (count offset : Z)
| ev_memset (buf_offset len : Z)
| ev_new_read_packet (i : nat)
| ev_get_conn (i : nat)
| ev_write_sock (i : nat)
| ev_get_read_reply (i : nat)
| ev_put_conn (i : nat)
| ev_close (i : nat)
| ev_cfs_pread (count offset : Z).

(** The events of one descriptor served over its socket. *)
Definition exchange (i : nat) : list event :=
  [ev_new_read_packet i; ev_get_conn i; ev_write_sock i;
   ev_get_read_reply i; ev_put_conn i].

(** The [for] loop of [cfs_pread_sock] from index [i] on; [reqs] holds
    [req[i]], [req[i+1]], ... up to [req_count]. *)
Fixpoint read_loop (w : sdk_t) (i : nat) (reqs : list cfs_read_req_t)
         (read : Z) (tr : list event) : Z * list event :=
  match reqs with
  | [] => (read, tr)
  | rq :: reqs' =>
      if (size rq =? 0)%Z then (read, tr)
      else if (partition_id rq =? 0)%Z then
        read_loop w (S i) reqs' (to_ssize_t (read + size rq))
                  (tr ++ [ev_memset read (size rq)])
      else if negb (new_read_packet w i) then
        (read, tr ++ [ev_new_read_packet i])
      else if (get_conn w i <? 0)%Z then
        (read, tr ++ [ev_new_read_packet i; ev_get_conn i])
      else if (write_sock w i <? 0)%Z then
        (read, tr ++ [ev_new_read_packet i; ev_get_conn i; ev_write_sock i;
                      ev_close i])
      else
        let re := get_read_reply w i in
        if (re <? 0)%Z then
          (read, tr ++ [ev_new_read_packet i; ev_get_conn i; ev_write_sock i;
                        ev_get_read_reply i; ev_close i])
        else
          let read' := to_ssize_t (read + re) in
          if negb (to_size_t re =? size rq)%Z then (read', tr ++ exchange i)
          else read_loop w (S i) reqs' read' (tr ++ exchange i)
  end.

Definition max_count : nat := 3.

(** The query and the loop: the bytes the fast path accounts for, and the
    calls made so far. Entries of the zero-filled array that the SDK did
    not store have [size == 0] and end the loop, as the end of the list
    does here. *)
Definition fast_path (w : sdk_t) (count offset : Z) : Z * list event :=
  let '(req_count, req) := cfs_read_requests w in
  read_loop w 0 (firstn (Z.to_nat req_count) (firstn max_count req)) 0%Z
            [ev_read_requests count offset].

(** [ssize_t cfs_pread_sock(int64_t id, int fd, void *buf, size_t count,
    off_t offset)]: the result and the calls made. *)
Definition cfs_pread_sock (w : sdk_t) (count offset : Z) : Z * list event :=
  let '(read, tr) := fast_path w count offset in
  if (to_size_t read <? count)%Z
  then (cfs_pread w, tr ++ [ev_cfs_pread count offset])
  else (read, tr).

Definition is_cfs_pread (e : event) : bool :=
  match e with ev_cfs_pread _ _ => true | _ => false end.
Definition is_write_sock (e : event) : bool :=
  match e with ev_write_sock _ => true | _ => false end.

(** Number of fallback calls, and of socket round trips, in a trace. *)
Definition fallback_calls (tr : list event) : nat :=
  length (List.filter is_cfs_pread tr).
Definition round_trips (tr : list event) : nat :=
  length (List.filter is_write_sock tr).

(** Sum of the descriptor lengths. *)
Definition total_size (reqs : list cfs_read_req_t) : Z :=
  fold_right (fun rq acc => (size rq + acc)%Z) 0%Z reqs.

(** The ways the loop is cut short at a descriptor without adding to the
    total: an empty descriptor, or a descriptor with data whose packet
    cannot be built, whose connection cannot be had, or whose write or
    reply fails. *)
Definition cut_short (w : sdk_t) (i : nat) (rq : cfs_read_req_t) : Prop :=
  (size rq = 0 \/
  partition_id rq <> 0 /\
  (new_read_packet w i = false \/ get_conn w i < 0 \/ write_sock w i < 0 \/
   get_read_reply w i < 0))%Z.

(** A descriptor with data whose exchange succeeds and brings exactly the
    bytes asked for. *)
Definition served (w : sdk_t) (i : nat) (rq : cfs_read_req_t) : Prop :=
  (0 < size rq /\ partition_id rq <> 0 /\ new_read_packet w i = true /\
   0 <= get_conn w i /\ 0 <= write_sock w i /\
   get_read_reply w i = size rq)%Z.

(** A descriptor of a hole: a length and no partition. *)
Definition hole (rq : cfs_read_req_t) : Prop :=
  (0 < size rq /\ partition_id rq = 0)%Z.

(** A descriptor with data whose exchange succeeds and brings [re] bytes,
    which is not the length asked for. *)
Definition short_reply (w : sdk_t) (i : nat) (rq : cfs_read_req_t) (re : Z)
  : Prop :=
  (0 < size rq /\ partition_id rq <> 0 /\ new_read_packet w i = true /\
   0 <= get_conn w i /\ 0 <= write_sock w i /\
   get_read_reply w i = re /\ 0 <= re /\ re <> size rq)%Z.

(** The descriptors the loop can look at: the first [req_count] of the
    [max_count] entries of [req]. *)
Definition reported (w : sdk_t) : list cfs_read_req_t :=
  firstn (Z.to_nat (fst (cfs_read_requests w)))
         (firstn max_count (snd (cfs_read_requests w))).

(** Where the loop ends, at index [i] with [rest] left to look at, and
    the bytes [a] it still adds there: none when nothing is left (the
    query failed, reported nothing, or every descriptor was gone
    through) or when the descriptor is cut short, the bytes of the reply
    when the reply has not the length asked for. *)
Definition stops_at (w : sdk_t) (i : nat) (rest : list cfs_read_req_t)
           (a : Z) : Prop :=
  match rest with
  | [] => a = 0%Z
  | rq :: _ => cut_short w i rq /\ a = 0%Z \/ short_reply w i rq a
  end.

(** ** Configuration handler *)

(** [strcmp(s1, s2) == 0] *)
Fixpoint strcmp_eq (s1 s2 : cstring) : bool :=
  match s1, s2 with
  | [], [] => true
  | c1 :: t1, c2 :: t2 => Ascii.eqb c1 c2 && strcmp_eq t1 t2
  | _, _ => false
  end.

(** [strdup(s)], which returns [NULL] when the allocation fails. *)
Definition strdup (malloc_ok : bool) (s : cstring) : option cstring :=
  if malloc_ok then Some s else None.

Module Config.

(** [client_config_t]: five strings, [NULL] until they are set. *)
Record client_config_t := mk_config {
  mount_point : option cstring;
  ignore_path : option cstring;
  log_dir : option cstring;
  log_level : option cstring;
  prof_port : option cstring
}.

(** [#define MATCH(s, n) strcmp(section, s) == 0 && strcmp(name, n) == 0] *)
Definition MATCH (section name : cstring) (s n : string) : bool :=
  strcmp_eq section (cstr s) && strcmp_eq name (cstr n).

(** [static int config_handler(void* user, const char* section,
    const char* name, const char* value)]: the result and the
    configuration afterwards. The string a field held before is not
    freed. *)
Definition config_handler (malloc_ok : bool) (pconfig : client_config_t)
           (section name value : cstring) : Z * client_config_t :=
  if MATCH section name "" "mountPoint" then
    (1%Z, mk_config (strdup malloc_ok value) (ignore_path pconfig)
                    (log_dir pconfig) (log_level pconfig) (prof_port pconfig))
  else if MATCH section name "" "ignorePath" then
    (1%Z, mk_config (mount_point pconfig) (strdup malloc_ok value)
                    (log_dir pconfig) (log_level pconfig) (prof_port pconfig))
  else if MATCH section name "" "logDir" then
    (1%Z, mk_config (mount_point pconfig) (ignore_path pconfig)
                    (strdup malloc_ok value) (log_level pconfig)
                    (prof_port pconfig))
  else if MATCH section name "" "logLevel" then
    (1%Z, mk_config (mount_point pconfig) (ignore_path pconfig)
                    (log_dir pconfig) (strdup malloc_ok value)
                    (prof_port pconfig))
  else if MATCH section name "" "profPort" then
    (1%Z, mk_config (mount_point pconfig) (ignore_path pconfig)
                    (log_dir pconfig) (log_level pconfig)
                    (strdup malloc_ok value))
  else (0%Z, pconfig) (* unknown section/name, error *).

End Config.

(** ** The glibc version test *)

(** [isspace] and [isdigit] in the C locale. *)
Definition isspace (c : ascii) : bool :=
  let n := nat_of_ascii c in (n =? 32) || (9 <=? n) && (n <=? 13).
Definition isdigit (c : ascii) : bool :=
  let n := nat_of_ascii c in (48 <=? n) && (n <=? 57).

(** The digits read by [strtol] in base 10, most significant first. *)
Fixpoint strtol_digits (s : cstring) (acc : Z) : Z :=
  match s with
  | [] => acc
  | c :: s' =>
      if isdigit c
      then strtol_digits s' (acc * 10 + (Z.of_nat (nat_of_ascii c) - 48))%Z
      else acc
  end.

Fixpoint skip_spaces (s : cstring) : cstring :=
  match s with
  | [] => []
  | c :: s' => if isspace c then skip_spaces s' else s
  end.

(** [strtol(s, NULL, 10)]: white space, an optional sign, digits; a value
    out of range is replaced by [LONG_MIN] or [LONG_MAX]. *)
Definition strtol10 (s : cstring) : Z :=
  let s1 := skip_spaces s in
  let negative := Ascii.eqb (char_at s1 0) "-" in
  let s2 :=
    if negative || Ascii.eqb (char_at s1 0) "+" then skipn 1 s1 else s1 in
  let v := strtol_digits s2 0 in
  let v := if negative then (- v)%Z else v in
  Z.max (- 2 ^ 63) (Z.min SSIZE_MAX v).

(** [atoi(s)], which glibc defines as [(int) strtol(s, NULL, 10)]. *)
Definition atoi (s : cstring) : Z := to_int (strtol10 s).

(** [strstr(s, ".")]: the suffix of [s] from its first dot on. *)
Fixpoint strstr_dot (s : cstring) : option cstring :=
  match s with
  | [] => None
  | c :: s' => if Ascii.eqb c "." then Some s else strstr_dot s'
  end.

(** [s] as a C string once [delimiter[0] = '\0'] is written at its first
    dot. *)
Fixpoint cut_at_dot (s : cstring) : cstring :=
  match s with
  | [] => []
  | c :: s' => if Ascii.eqb c "." then [] else c :: cut_at_dot s'
  end.

(** [static bool has_renameat2()], for the string [ver] that
    [gnu_get_libc_version()] returns. *)
Definition has_renameat2 (malloc_ok : bool) (ver : cstring) : bool :=
  match strdup malloc_ok ver with
  | None => false
  | Some ver1 =>
      let delimiter := strstr_dot ver1 in
      let len := match delimiter with Some d => length d | None => 0 end in
      let ver1' := match delimiter with
                   | Some _ => cut_at_dot ver1
                   | None => ver1
                   end in
      let major := atoi ver1' in
      let minor :=
        match delimiter with
        | Some d => if 1 <? len then atoi (skipn 1 d) else 0%Z
        | None => 0%Z
        end in
      (2 <? major)%Z || (major =? 2)%Z && (28 <=? minor)%Z
  end.

(** ** Vocabulary for the properties of the cleaner *)

(** A run of the loop that ends, whatever the number of passes. *)
Definition cleans (rooted : bool) (rest out : cstring) (dotdot : nat)
           (res : cstring) : Prop :=
  exists fuel, clean_loop fuel rooted rest out dotdot = Some res.

Definition no_slash (e : cstring) : Prop := Forall (fun c => c <> "/"%char) e.

(** A real path element: not empty, no separator, neither [.] nor [..]. *)
Definition elem_ok (e : cstring) : Prop :=
  e <> [] /\ no_slash e /\ e <> ["."%char] /\ e <> ["."%char; "."%char].

(** What the loop starts from: [out] and [dotdot] after the optional
    leading slash. *)
Definition init_out (rooted : bool) : cstring :=
  if rooted then ["/"%char] else [].
Definition init_dotdot (rooted : bool) : nat := if rooted then 1 else 0.

(** [out] after "add slash if needed". *)
Definition sep (rooted : bool) (out : cstring) : cstring :=
  if rooted && negb (length out =? 1) || negb rooted && negb (length out =? 0)
  then out ++ ["/"%char] else out.

(** The shapes [out] and [dotdot] go through: the start, then real
    elements joined by single slashes, after (for a path that is not
    rooted) a run of leading [..] elements that [dotdot] protects. *)
Inductive canon (rooted : bool) : cstring -> nat -> Prop :=
| canon_init : canon rooted (init_out rooted) (init_dotdot rooted)
| canon_dots out dotdot :
    rooted = false -> canon rooted out dotdot -> length out = dotdot ->
    canon rooted (sep rooted out ++ ["."%char; "."%char])
          (length (sep rooted out ++ ["."%char; "."%char]))
| canon_elem out dotdot e :
    canon rooted out dotdot -> elem_ok e ->
    canon rooted (sep rooted out ++ e) dotdot.

(** [q] is [..] or begins with a [..] element. *)
Definition starts_dotdot (q : cstring) : bool :=
  match q with
  | c1 :: c2 :: t => Ascii.eqb c1 "." && Ascii.eqb c2 "." && at_elem_end t
  | _ => false
  end.

(** The rooted buffer [base] continued by what the loop writes for a
    relative path. *)
Definition glue (base o : cstring) : cstring :=
  match o with
  | [] => base
  | _ => sep true base ++ o
  end.

(** ** The classification in the words of the design *)

(** The remainder of [s] after the prefix [m], when [m] is a prefix. *)
Fixpoint strip_prefix (m s : cstring) : option cstring :=
  match m, s with
  | [], _ => Some s
  | c :: m', d :: s' => if Ascii.eqb d c then strip_prefix m' s' else None
  | _ :: _, [] => None
  end.

(** The characters before the first separator. *)
Fixpoint first_segment (t : cstring) : cstring :=
  match t with
  | [] => []
  | c :: t' => if Ascii.eqb c "/" then [] else c :: first_segment t'
  end.

Definition cstring_eqb (s t : cstring) : bool :=
  if List.list_eq_dec Ascii.ascii_dec s t then true else false.

(** "A cleaned path is remote only if it equals the mount point or starts
    with the mount point followed by a separator; an ignore-list entry
    matches if it is the exact next path segment after the mount point;
    the result is the cleaned path with the mount-point prefix removed, an
    empty remainder becoming the root." *)
Definition classify_spec (mount : cstring) (ignored : list cstring)
           (p : cstring) : option cstring :=
  match strip_prefix mount p with
  | None => None
  | Some [] => Some ["/"%char]
  | Some (c :: t) =>
      if Ascii.eqb c "/" then
        if existsb (cstring_eqb (first_segment t)) ignored then None
        else Some (c :: t)
      else None
  end.

(** The test the token loop makes on one token, for the part [t] of the
    path after the mount point and its separator. *)
Definition token_matches (t token : cstring) : bool :=
  strncmp_eq t token (length token)
  && (Ascii.eqb (char_at t (length token)) NUL
      || Ascii.eqb (char_at t (length token)) "/").

Definition no_nul (s : cstring) : Prop := Forall (fun c => c <> NUL) s.

(** ** Vocabulary for the further properties *)

(** Path elements joined by single separators. *)
Fixpoint join_slash (l : list cstring) : cstring :=
  match l with
  | [] => []
  | [e] => e
  | e :: l' => e ++ "/"%char :: join_slash l'
  end.

(** The paths the cleaner aims at: an optional leading separator, then
    [k] elements [..], then [elems], joined by single separators. *)
Definition normal_form (rooted : bool) (k : nat) (elems : list cstring)
  : cstring :=
  init_out rooted ++ join_slash (repeat ["."%char; "."%char] k ++ elems).

(** Events by which a socket leaves the function: back to the pool, or
    closed. *)
Definition is_release (e : event) : bool :=
  match e with
  | ev_put_conn _ | ev_close _ => true
  | _ => false
  end.

(** A [get_conn] that returned a socket. *)
Definition is_acquire (w : sdk_t) (e : event) : bool :=
  match e with
  | ev_get_conn i => (0 <=? get_conn w i)%Z
  | _ => false
  end.

(** The zero fills for the holes among [reqs], when [read] bytes of the
    buffer precede them. *)
Fixpoint memsets (reqs : list cfs_read_req_t) (read : Z) : list event :=
  match reqs with
  | [] => []
  | rq :: reqs' =>
      if (partition_id rq =? 0)%Z
      then ev_memset read (size rq) :: memsets reqs' (read + size rq)%Z
      else memsets reqs' (read + size rq)%Z
  end.

Definition is_memset (e : event) : bool :=
  match e with ev_memset _ _ => true | _ => false end.

(** The descriptors with data among [reqs]. *)
Definition with_data (reqs : list cfs_read_req_t) : list cfs_read_req_t :=
  List.filter (fun rq => negb (partition_id rq =? 0)%Z) reqs.

(** The decimal digits of a number as characters. *)
Fixpoint decimal_chars (u : Decimal.uint) : cstring :=
  match u with
  | Decimal.Nil => []
  | Decimal.D0 u' => "0"%char :: decimal_chars u'
  | Decimal.D1 u' => "1"%char :: decimal_chars u'
  | Decimal.D2 u' => "2"%char :: decimal_chars u'
  | Decimal.D3 u' => "3"%char :: decimal_chars u'
  | Decimal.D4 u' => "4"%char :: decimal_chars u'
  | Decimal.D5 u' => "5"%char :: decimal_chars u'
  | Decimal.D6 u' => "6"%char :: decimal_chars u'
  | Decimal.D7 u' => "7"%char :: decimal_chars u'
  | Decimal.D8 u' => "8"%char :: decimal_chars u'
  | Decimal.D9 u' => "9"%char :: decimal_chars u'
  end.

(* ===================================================================== *)
(** * Properties *)

(** ** Error translator *)

Section ErrorTranslator.
Local Open Scope Z_scope.

Lemma to_int_id z : is_int z -> to_int z = z.
Proof.
  unfold is_int, INT_MIN, INT_MAX, to_int, wrap_signed. intros Hz.
  rewrite Z.mod_small; lia.
Qed.

Lemma to_ssize_t_id z : is_ssize_t z -> to_ssize_t z = z.
Proof.
  unfold is_ssize_t, SSIZE_MAX, to_ssize_t, wrap_signed. intros Hz.
  rewrite Z.mod_small; lia.
Qed.

(** The negation of the most negative [int] does not fit: the stored
    errno is then not [-r]. *)
Lemma cfs_errno_int_min e0 : cfs_errno INT_MIN e0 = (-1, INT_MIN).
Proof. reflexivity. Qed.

(** A size-typed status below [-INT_MAX] loses its high bits when it is
    stored into [errno]. *)
Lemma cfs_errno_ssize_t_truncates e0 :
  cfs_errno_ssize_t (- 2 ^ 32) e0 = (-1, 0).
Proof. reflexivity. Qed.

(** C9. For a remote status [r] whose negation is a host errno value (an
    [int]): a negative [r] sets errno to [-r] and returns [-1]; a
    non-negative [r] sets errno to [0], whatever errno held before, and
    is returned unchanged. This holds for [cfs_errno] (r an [int]) and
    for [cfs_errno_ssize_t] (r an [ssize_t]); in particular [r = -2]
    gives errno [2] and the result [-1]. *)
Theorem cfs_errno_translates (r e0 : Z) :
  (INT_MIN < r <= INT_MAX ->
     (r < 0 -> cfs_errno r e0 = (-1, (- r))) /\
     (0 <= r -> cfs_errno r e0 = (r, 0))) /\
  (- INT_MAX <= r <= SSIZE_MAX ->
     (r < 0 -> cfs_errno_ssize_t r e0 = (-1, (- r))) /\
     (0 <= r -> cfs_errno_ssize_t r e0 = (r, 0))) /\
  cfs_errno (-2) e0 = (-1, 2) /\
  cfs_errno_ssize_t (-2) e0 = (-1, 2).
Proof.
  unfold cfs_errno, cfs_errno_ssize_t.
  split; [| split; [| split; reflexivity]].
  - intros Hr. split; intros Hs.
    + assert ((r <? 0) = true) as -> by lia.
      rewrite to_int_id; [reflexivity |].
      unfold is_int, INT_MIN, INT_MAX in *. lia.
    + assert ((r <? 0) = false) as -> by lia. reflexivity.
  - intros Hr. split; intros Hs.
    + assert ((r <? 0) = true) as -> by lia.
      rewrite to_ssize_t_id, to_int_id; [reflexivity | |];
        unfold is_int, is_ssize_t, INT_MIN, INT_MAX, SSIZE_MAX in *; lia.
    + assert ((r <? 0) = false) as -> by lia. reflexivity.
Qed.

Lemma cfs_errno_translates_witness :
  cfs_errno (-2) 17 = (-1, 2) /\ cfs_errno 4096 17 = (4096, 0) /\
  cfs_errno_ssize_t (-2) 17 = (-1, 2) /\
  cfs_errno_ssize_t 4096 17 = (4096, 0).
Proof.
  destruct (cfs_errno_translates (-2) 17) as (Hi & Hs & _).
  destruct (cfs_errno_translates 4096 17) as (Hi' & Hs' & _).
  unfold INT_MIN, INT_MAX, SSIZE_MAX in *.
  split; [apply Hi; lia |].
  split; [apply Hi'; lia |].
  split; [apply Hs; lia | apply Hs'; lia].
Defined.
End ErrorTranslator.

(** ** Descriptor registry *)

Section DescriptorRegistry.
Local Open Scope Z_scope.

Lemma CFS_FD_MASK_pow2 : CFS_FD_MASK = 2 ^ 30.
Proof. reflexivity. Qed.

Lemma testbit_mask n : 0 <= n -> Z.testbit CFS_FD_MASK n = (30 =? n).
Proof. intros Hn. rewrite CFS_FD_MASK_pow2. apply Z.pow2_bits_eqb. lia. Qed.

(** Bit 30 of [o] is clear exactly when clearing it changes nothing. *)
Lemma strip_mask_fixed o :
  Z.land o CFS_FD_MASK = 0 <-> Z.land o (Z.lnot CFS_FD_MASK) = o.
Proof.
  split; intros H.
  - apply Z.bits_inj'. intros n Hn.
    rewrite Z.land_spec, Z.lnot_spec, testbit_mask by lia.
    destruct (Z.eqb_spec 30 n) as [<- | _]; [| apply andb_true_r].
    apply (f_equal (fun z => Z.testbit z 30)) in H.
    rewrite Z.land_spec, testbit_mask, Z.bits_0 in H by lia.
    simpl in *. rewrite andb_true_r in H. rewrite H. reflexivity.
  - apply Z.bits_inj'. intros n Hn.
    rewrite Z.land_spec, testbit_mask, Z.bits_0 by lia.
    destruct (Z.eqb_spec 30 n) as [<- | _]; [| apply andb_false_r].
    rewrite <- H, Z.land_spec, Z.lnot_spec, testbit_mask by lia.
    simpl. rewrite andb_false_r. reflexivity.
Qed.

(** A state whose alias table was filled by [dup_fd] from a descriptor
    that carries the reserved bit. *)
Lemma dup_fd_stores_oldfd_verbatim :
  forall (p : ptr) (h : file_store),
    let g0 := mk_client_info ∅ {[ CFS_FD_MASK + 3 := p ]} None false [] [] in
    exists g1 h1,
      dup_fd (CFS_FD_MASK + 3) 5 g0 h = (5, g1, h1) /\
      get_cfs_fd g1 5 = CFS_FD_MASK + 3.
Proof.
  intros p h g0. unfold dup_fd. subst g0. cbn [open_files].
  rewrite lookup_singleton_eq. eexists _, _. split; [reflexivity |].
  unfold get_cfs_fd, set_dup_fds. cbn [dup_fds].
  rewrite lookup_insert_eq. reflexivity.
Qed.

(** C7, as stated, fails: the alias table [{5 -> CFS_FD_MASK + 3}]
    resolves [5] to the stored descriptor itself, reserved bit included,
    not to the handle id [3] that stripping the bit would give. *)
Lemma get_cfs_fd_alias_not_stripped :
  dup_fds (mk_client_info {[ 5 := CFS_FD_MASK + 3 ]} ∅ None false [] [])
    !! 5 = Some (CFS_FD_MASK + 3) /\
  Z.land (CFS_FD_MASK + 3) (Z.lnot CFS_FD_MASK) = 3 /\
  get_cfs_fd (mk_client_info {[ 5 := CFS_FD_MASK + 3 ]} ∅ None false [] [])
    5 = CFS_FD_MASK + 3 /\
  get_cfs_fd (mk_client_info {[ 5 := CFS_FD_MASK + 3 ]} ∅ None false [] [])
    5 <> Z.land (CFS_FD_MASK + 3) (Z.lnot CFS_FD_MASK).
Proof.
  unfold get_cfs_fd. cbn [dup_fds]. rewrite lookup_singleton_eq.
  repeat split. vm_compute. discriminate.
Qed.

(** C7, amended. For a descriptor in the alias table, [get_cfs_fd]
    returns the stored original descriptor as it is, with one
    indirection and no bit stripped (the result is the stripped value
    exactly when the stored descriptor does not carry the reserved bit);
    for a descriptor that is not aliased and has the reserved bit set it
    clears that bit; for every other descriptor it returns [-1].
    [fd_in_cfs] is true in the first two cases and false in the third. *)
Theorem get_cfs_fd_cases (g : client_info_t) (fd : Z) :
  (forall o, dup_fds g !! fd = Some o ->
     get_cfs_fd g fd = o /\ fd_in_cfs g fd = true /\
     (get_cfs_fd g fd = Z.land o (Z.lnot CFS_FD_MASK) <->
      Z.land o CFS_FD_MASK = 0)) /\
  (dup_fds g !! fd = None -> Z.land fd CFS_FD_MASK <> 0 ->
     get_cfs_fd g fd = Z.land fd (Z.lnot CFS_FD_MASK) /\
     fd_in_cfs g fd = true) /\
  (dup_fds g !! fd = None -> Z.land fd CFS_FD_MASK = 0 ->
     get_cfs_fd g fd = -1 /\ fd_in_cfs g fd = false).
Proof.
  unfold get_cfs_fd, fd_in_cfs. split; [| split].
  - intros o ->. split; [reflexivity |]. split; [reflexivity |].
    rewrite strip_mask_fixed. split; congruence.
  - intros -> Hbit. apply Z.eqb_neq in Hbit. rewrite Hbit. split; reflexivity.
  - intros -> Hbit. apply Z.eqb_eq in Hbit. rewrite Hbit. split; reflexivity.
Qed.

Lemma get_cfs_fd_cases_witness :
  get_cfs_fd (mk_client_info {[ 5 := 3 ]} ∅ None false [] []) 5 = 3 /\
  get_cfs_fd (mk_client_info ∅ ∅ None false [] []) (CFS_FD_MASK + 7)
    = Z.land (CFS_FD_MASK + 7) (Z.lnot CFS_FD_MASK) /\
  get_cfs_fd (mk_client_info ∅ ∅ None false [] []) 7 = -1.
Proof.
  split; [| split].
  - apply (get_cfs_fd_cases
             (mk_client_info {[ 5 := 3 ]} ∅ None false [] []) 5).
    reflexivity.
  - apply (get_cfs_fd_cases (mk_client_info ∅ ∅ None false [] [])
                            (CFS_FD_MASK + 7)).
    + reflexivity.
    + vm_compute. discriminate.
  - apply (get_cfs_fd_cases (mk_client_info ∅ ∅ None false [] []) 7).
    + reflexivity.
    + reflexivity.
Defined.

(** C8. [dup_fd oldfd newfd]: when [oldfd] has no entry in the open-files
    table the call returns [-1] and leaves the client state and every
    [file_t] as they were; when it has one, the call returns [newfd],
    records the alias [newfd -> oldfd], leaves the open-files table
    alone, and adds one to the [dup_ref] of the handle [oldfd] points to
    and to no other field or handle. *)
Theorem dup_fd_registers (oldfd newfd : Z) (g : client_info_t)
        (h : file_store) :
  (open_files g !! oldfd = None -> dup_fd oldfd newfd g h = (-1, g, h)) /\
  (forall p, open_files g !! oldfd = Some p ->
     exists g' h',
       dup_fd oldfd newfd g h = (newfd, g', h') /\
       dup_fds g' = <[newfd := oldfd]> (dup_fds g) /\
       dup_fds g' !! newfd = Some oldfd /\
       (forall k, k <> newfd -> dup_fds g' !! k = dup_fds g !! k) /\
       open_files g' = open_files g /\
       (forall q, q <> p -> h' !! q = h !! q) /\
       (forall f, h !! p = Some f ->
          exists f', h' !! p = Some f' /\
            dup_ref f' = to_int (dup_ref f + 1) /\
            (INT_MIN <= dup_ref f < INT_MAX ->
             dup_ref f' = dup_ref f + 1) /\
            (fd f', flags f', pos f', file_type f', inode_info f') =
            (fd f, flags f, pos f, file_type f, inode_info f))).
Proof.
  unfold dup_fd. split.
  - intros ->. reflexivity.
  - intros p ->. eexists _, _. split; [reflexivity |].
    unfold set_dup_fds. cbn [dup_fds open_files].
    split; [reflexivity |]. split; [apply lookup_insert_eq |].
    split; [intros k Hk; apply lookup_insert_ne; congruence |].
    split; [reflexivity |].
    split; [intros q Hq; apply lookup_alter_ne; congruence |].
    intros f Hf. exists (incr_dup_ref f).
    rewrite lookup_alter_eq, Hf. split; [reflexivity |].
    split; [reflexivity |]. split; [| reflexivity].
    intros Hr. cbn [incr_dup_ref dup_ref]. apply to_int_id.
    unfold is_int. lia.
Qed.

Lemma dup_fd_registers_witness :
  dup_fd 3 9 (mk_client_info ∅ ∅ None false [] []) ∅
    = (-1, mk_client_info ∅ ∅ None false [] [], ∅) /\
  exists g' h',
    dup_fd 3 9 (mk_client_info {[ 8 := 4 ]} {[ 3 := 1%positive ]}
                               None false [] [])
           {[ 1%positive := mk_file 3 0 0 1 0 None ]} = (9, g', h') /\
    dup_fds g' !! 9 = Some 3 /\ dup_fds g' !! 8 = Some 4 /\
    h' !! 2%positive = None /\
    exists f', h' !! 1%positive = Some f' /\ dup_ref f' = 2.
Proof.
  split.
  - apply (dup_fd_registers 3 9 (mk_client_info ∅ ∅ None false [] []) ∅).
    reflexivity.
  - destruct (dup_fd_registers 3 9
                (mk_client_info {[ 8 := 4 ]} {[ 3 := 1%positive ]}
                                None false [] [])
                {[ 1%positive := mk_file 3 0 0 1 0 None ]}) as [_ H].
    destruct (H 1%positive)
      as (g' & h' & Hd & _ & Ha & Hk & _ & Hq & Hf).
    { reflexivity. }
    destruct (Hf (mk_file 3 0 0 1 0 None)) as (f' & Hf' & _ & Hinc & _).
    { reflexivity. }
    exists g', h'. split; [exact Hd |]. split; [exact Ha |].
    split; [rewrite (Hk 8) by lia; reflexivity |].
    split; [rewrite (Hq 2%positive) by lia; reflexivity |].
    exists f'. split; [exact Hf' |].
    rewrite Hinc; [reflexivity |]. cbn [dup_ref]. unfold INT_MIN, INT_MAX. lia.
Defined.
End DescriptorRegistry.


(** ** Path cleaner *)

Section PathCleaner.

(** The rules of the cleaner on a few paths. *)
Example get_clean_path_examples :
  get_clean_path true (Some (cstr "")) = Some (cstr ".") /\
  get_clean_path true (Some (cstr "//a/./b/../c/")) = Some (cstr "/a/c") /\
  get_clean_path true (Some (cstr "../../a/..")) = Some (cstr "../..") /\
  get_clean_path true (Some (cstr "a/../..")) = Some (cstr "..") /\
  get_clean_path true (Some (cstr "/../a")) = Some (cstr "/a") /\
  get_clean_path true (Some (cstr "/a/b/../../..")) = Some (cstr "/") /\
  get_clean_path true (Some (cstr "...")) = Some (cstr "...") /\
  get_clean_path false (Some (cstr "/a")) = None /\
  get_clean_path true None = None.
Proof. repeat split; reflexivity. Qed.

Lemma copy_elem_spec rest out :
  exists e rest',
    copy_elem rest out = (rest', out ++ e) /\ rest = e ++ rest' /\
    no_slash e /\ at_elem_end rest' = true.
Proof.
  revert out. induction rest as [| c rest IH]; intros out; simpl.
  - exists [], []. rewrite app_nil_r. repeat split. constructor.
  - destruct (Ascii.eqb_spec c "/") as [-> | Hc].
    + exists [], ("/"%char :: rest). rewrite app_nil_r.
      repeat split. constructor.
    + destruct (IH (out ++ [c])) as (e & rest' & Hcp & -> & Hns & Hend).
      exists (c :: e), rest'. rewrite Hcp, <- app_assoc. simpl.
      repeat split; [constructor; assumption | assumption].
Qed.

Lemma copy_elem_app e X out :
  no_slash e -> at_elem_end X = true -> copy_elem (e ++ X) out = (X, out ++ e).
Proof.
  intros Hns HX. revert out.
  induction Hns as [| c e Hc Hns IH]; intros out; simpl.
  - rewrite app_nil_r. destruct X as [| x X]; [reflexivity |].
    simpl in *. rewrite HX. reflexivity.
  - destruct (Ascii.eqb_spec c "/"); [contradiction |].
    rewrite IH, <- app_assoc. reflexivity.
Qed.

(** More fuel does not change the outcome of a run that ended. *)
Lemma clean_loop_mono fuel : forall fuel' rooted rest out dotdot res,
  clean_loop fuel rooted rest out dotdot = Some res -> fuel <= fuel' ->
  clean_loop fuel' rooted rest out dotdot = Some res.
Proof.
  induction fuel as [| fuel IH]; intros fuel' rooted rest out dotdot res H Hle;
    destruct rest as [| c rest1]; destruct fuel' as [| fuel'];
    simpl in *; try congruence; try lia.
  assert (fuel <= fuel') as Hle' by lia.
  repeat match goal with
         | |- context [if ?b then _ else _] => destruct b
         | |- context [let '(_, _) := ?x in _] => destruct x
         end; eauto.
Qed.

(** The loop ends within as many passes as there are bytes left. *)
Lemma clean_loop_total fuel : forall rooted rest out dotdot,
  length rest <= fuel -> exists res, clean_loop fuel rooted rest out dotdot = Some res.
Proof.
  induction fuel as [| fuel IH]; intros rooted rest out dotdot Hlen;
    destruct rest as [| c rest1]; simpl in *; eauto; try lia.
  destruct (Ascii.eqb c "/") eqn:Hc; [apply IH; lia |].
  destruct (_ && at_elem_end rest1); [apply IH; lia |].
  destruct (_ && _ && _).
  - assert (length (tl rest1) <= fuel).
    { destruct rest1; simpl in *; lia. }
    repeat match goal with
           | |- context [if ?b then _ else _] => destruct b
           end; apply IH; assumption.
  - match goal with |- context [copy_elem ?r ?o] =>
      destruct (copy_elem_spec r o) as (e & rest' & Hcp & Hr & Hns & He) end.
    rewrite Hcp. apply IH.
    apply (f_equal (@length ascii)) in Hr. rewrite length_app in Hr. lia.
Qed.

(** *** One pass of the loop, read backwards *)

Lemma cleans_nil rooted out dotdot : cleans rooted [] out dotdot out.
Proof. exists 0. reflexivity. Qed.

Lemma cleans_slash rooted rest out dotdot res :
  cleans rooted rest out dotdot res ->
  cleans rooted ("/"%char :: rest) out dotdot res.
Proof. intros [fuel H]. exists (S fuel). exact H. Qed.

Lemma elem_not_dot c e X :
  elem_ok (c :: e) -> at_elem_end X = true ->
  Ascii.eqb c "." && at_elem_end (e ++ X) = false.
Proof.
  intros (_ & Hns & Hd & _) HX. inversion Hns as [| ? ? Hc He]; subst.
  destruct (Ascii.eqb_spec c "."); [subst | reflexivity].
  destruct e as [| c2 e]; [congruence |].
  inversion He; subst. simpl. apply Ascii.eqb_neq. assumption.
Qed.

Lemma elem_not_dotdot c e X :
  elem_ok (c :: e) -> at_elem_end X = true ->
  Ascii.eqb c "." && Ascii.eqb (hd NUL (e ++ X)) "."
    && at_elem_end (tl (e ++ X)) = false.
Proof.
  intros (_ & Hns & _ & Hdd) HX. inversion Hns as [| ? ? Hc He]; subst.
  destruct (Ascii.eqb_spec c "."); [subst | reflexivity].
  destruct e as [| c2 e]; simpl.
  - destruct X as [| x X]; [reflexivity |]. simpl in HX.
    apply Ascii.eqb_eq in HX. subst x. reflexivity.
  - destruct (Ascii.eqb_spec c2 "."); [subst | reflexivity].
    destruct e as [| c3 e]; [congruence |].
    inversion He as [| ? ? _ He']; subst. inversion He'; subst.
    simpl. apply Ascii.eqb_neq. assumption.
Qed.

Lemma cleans_elem rooted e X out dotdot res :
  elem_ok e -> at_elem_end X = true ->
  cleans rooted X (sep rooted out ++ e) dotdot res ->
  cleans rooted (e ++ X) out dotdot res.
Proof.
  intros He HX [fuel H]. exists (S fuel).
  destruct e as [| c e]; [destruct He; congruence |].
  rewrite <- app_comm_cons. cbn [clean_loop].
  assert (Ascii.eqb c "/" = false) as ->.
  { destruct He as (_ & Hns & _). inversion Hns; subst.
    apply Ascii.eqb_neq. assumption. }
  rewrite elem_not_dot, elem_not_dotdot by assumption.
  rewrite app_comm_cons, copy_elem_app; [exact H | apply He | exact HX].
Qed.

Lemma cleans_dots X out dotdot res :
  at_elem_end X = true -> length out <= dotdot ->
  cleans false X (sep false out ++ ["."%char; "."%char])
         (length (sep false out ++ ["."%char; "."%char])) res ->
  cleans false ("."%char :: "."%char :: X) out dotdot res.
Proof.
  intros HX Hle [fuel H]. exists (S fuel). cbn [clean_loop].
  change (Ascii.eqb "." "/") with false. cbv iota.
  change (Ascii.eqb "." "." && at_elem_end ("."%char :: X)) with false.
  cbv iota. cbn [hd tl]. change (Ascii.eqb "." ".") with true.
  rewrite HX. cbn [andb negb].
  assert ((dotdot <? length out) = false) as -> by (apply Nat.ltb_ge; lia).
  unfold sep in H. cbn [andb negb orb] in H.
  replace (0 <? length out) with (negb (length out =? 0)); [exact H |].
  destruct (length out); reflexivity.
Qed.

(** *** Backtracking over the last element *)

Lemma backtrack_stop out dotdot p k :
  dotdot <= p -> (p = dotdot \/ char_at out p = "/"%char) ->
  (forall i, 1 <= i <= k -> char_at out (p + i) <> "/"%char) ->
  backtrack out dotdot (p + k) = p.
Proof.
  intros Hle Hp. induction k as [| k IH]; intros Hk.
  - rewrite Nat.add_0_r. destruct p as [| p]; [reflexivity |].
    cbn [backtrack]. destruct Hp as [<- | ->].
    + assert ((S p <? S p) = false) as -> by (apply Nat.ltb_ge; lia).
      reflexivity.
    + change (Ascii.eqb "/" "/") with true. rewrite andb_false_r. reflexivity.
  - rewrite Nat.add_succ_r. cbn [backtrack].
    assert ((dotdot <? S (p + k)) = true) as -> by (apply Nat.ltb_lt; lia).
    specialize (Hk (S k)) as Hc. rewrite Nat.add_succ_r in Hc.
    apply Ascii.eqb_neq in Hc; [| lia]. rewrite Hc. cbn [andb negb].
    apply IH. intros i Hi. apply Hk. lia.
Qed.

Lemma canon_dotdot_le rooted out dotdot :
  canon rooted out dotdot -> dotdot <= length out.
Proof.
  induction 1 as [| | out dotdot e _ IH _].
  - destruct rooted; simpl; lia.
  - lia.
  - rewrite length_app. unfold sep.
    destruct (_ || _); rewrite ?length_app; lia.
Qed.

Lemma canon_rooted_dotdot out dotdot : canon true out dotdot -> dotdot = 1.
Proof. induction 1; [reflexivity | congruence | assumption]. Qed.

Lemma canon_rooted_hd out dotdot :
  canon true out dotdot -> exists t, out = "/"%char :: t.
Proof.
  induction 1 as [| | out dotdot e _ [t ->] _].
  - exists []. reflexivity.
  - congruence.
  - unfold sep. destruct (_ || _); simpl; eauto.
Qed.

(** Either a slash is added before the next element, or nothing has been
    written after the start. *)
Lemma canon_sep rooted out dotdot :
  canon rooted out dotdot ->
  sep rooted out = out ++ ["/"%char] \/
  (sep rooted out = out /\ out = init_out rooted /\
   dotdot = init_dotdot rooted).
Proof.
  intros Hc. unfold sep. destruct rooted; simpl.
  - destruct (canon_rooted_hd _ _ Hc) as [t ->].
    rewrite (canon_rooted_dotdot _ _ Hc).
    destruct t; simpl; [right | left]; auto.
  - pose proof (canon_dotdot_le _ _ _ Hc) as Hle.
    destruct out; simpl in *; [right | left]; auto.
    repeat split. lia.
Qed.

Lemma backtrack_last pre c t dotdot :
  no_slash t -> dotdot <= length pre ->
  (length pre = dotdot \/ c = "/"%char) ->
  firstn (backtrack (pre ++ c :: t) dotdot (length (pre ++ c :: t) - 1))
         (pre ++ c :: t) = pre.
Proof.
  intros Hns Hle Hc.
  replace (length (pre ++ c :: t) - 1) with (length pre + length t)
    by (rewrite length_app; simpl; lia).
  rewrite backtrack_stop.
  - rewrite firstn_app, firstn_all, Nat.sub_diag. simpl. apply app_nil_r.
  - exact Hle.
  - destruct Hc as [Hp | ->]; [left; exact Hp | right].
    unfold char_at. rewrite app_nth2, Nat.sub_diag by lia. reflexivity.
  - intros i Hi. unfold char_at. rewrite app_nth2 by lia.
    replace (length pre + i - length pre) with (S (i - 1)) by lia. simpl.
    apply Forall_nth; [exact Hns | lia].
Qed.

Lemma backtrack_elem rooted out dotdot e :
  canon rooted out dotdot -> elem_ok e ->
  firstn (backtrack (sep rooted out ++ e) dotdot
                    (length (sep rooted out ++ e) - 1))
         (sep rooted out ++ e) = out.
Proof.
  intros Hc (Hne & Hns & _).
  pose proof (canon_dotdot_le _ _ _ Hc) as Hle.
  destruct (canon_sep _ _ _ Hc) as [-> | (-> & Hi & Hd)].
  - rewrite <- app_assoc. simpl. apply backtrack_last; auto.
  - destruct e as [| c t]; [congruence |]. inversion Hns; subst.
    apply backtrack_last; auto. left.
    destruct rooted; reflexivity.
Qed.

Lemma sep_not_rooted out :
  sep false out = if 0 <? length out then out ++ ["/"%char] else out.
Proof. unfold sep. destruct (length out); reflexivity. Qed.

Lemma sep_length rooted out :
  length out <= length (sep rooted out) <= S (length out) /\
  (out = init_out rooted -> sep rooted out = out).
Proof.
  unfold sep. split.
  - destruct (_ || _); rewrite ?length_app; simpl; lia.
  - intros ->. destruct rooted; reflexivity.
Qed.

(** Every state of the loop has the canonical shape, and [dotdot] never
    goes down. *)
Lemma clean_loop_canon fuel : forall rooted rest out dotdot res,
  canon rooted out dotdot ->
  clean_loop fuel rooted rest out dotdot = Some res ->
  exists dotdot', canon rooted res dotdot' /\ dotdot <= dotdot'.
Proof.
  induction fuel as [| fuel IH]; intros rooted rest out dotdot res Hc H;
    destruct rest as [| c rest1]; cbn [clean_loop] in H;
    try (injection H as <-; eauto); try discriminate.
  destruct (Ascii.eqb c "/") eqn:Hslash; [eauto |].
  destruct (Ascii.eqb c "." && at_elem_end rest1) eqn:Hdot; [eauto |].
  destruct (Ascii.eqb c "." && Ascii.eqb (hd NUL rest1) "."
            && at_elem_end (tl rest1)) eqn:Hdd.
  - destruct (dotdot <? length out) eqn:Hw.
    + apply Nat.ltb_lt in Hw.
      destruct Hc as [| out0 dotdot0 Hr Hc0 Hlen | out0 dotdot e Hc0 He].
      * destruct rooted; simpl in Hw; lia.
      * lia.
      * rewrite backtrack_elem in H by assumption. eauto.
    + apply Nat.ltb_ge in Hw.
      pose proof (canon_dotdot_le _ _ _ Hc) as Hle.
      destruct rooted; cbn [negb] in H; [eauto |].
      rewrite <- sep_not_rooted in H.
      destruct (IH _ _ _ _ _ (canon_dots false out dotdot eq_refl Hc
                                         ltac:(lia)) H)
        as (dotdot' & Hc' & Hle').
      exists dotdot'. split; [exact Hc' |].
      rewrite length_app in Hle'. destruct (sep_length false out) as [Hs _].
      lia.
  - change (if rooted && negb (length out =? 1)
               || negb rooted && negb (length out =? 0)
            then out ++ ["/"%char] else out) with (sep rooted out) in H.
    destruct (copy_elem_spec (c :: rest1) (sep rooted out))
      as (e & rest' & Hcp & Hr & Hns & Hend).
    rewrite Hcp in H. eapply IH; [| exact H].
    apply canon_elem; [exact Hc |].
    destruct e as [| c' e]; simpl in Hr.
    { subst rest'. simpl in Hend. congruence. }
    injection Hr as <- Hr. subst rest1.
    split; [discriminate |]. split; [exact Hns |]. split.
    + intros [= -> ->]. simpl in Hdot. rewrite Hend in Hdot. discriminate.
    + intros [= -> ->]. simpl in Hdd. rewrite Hend in Hdd. discriminate.
Qed.

(** *** Cleaning a canonical path *)

Lemma canon_init_le rooted out dotdot :
  canon rooted out dotdot -> init_dotdot rooted <= length out.
Proof.
  intros Hc. destruct rooted; simpl; [| lia].
  destruct (canon_rooted_hd _ _ Hc) as [t ->]. simpl. lia.
Qed.

Lemma skipn_init_app rooted out dotdot Y :
  canon rooted out dotdot ->
  skipn (init_dotdot rooted) (out ++ Y) = skipn (init_dotdot rooted) out ++ Y.
Proof.
  intros Hc. pose proof (canon_init_le _ _ _ Hc) as Hle.
  rewrite skipn_app.
  replace (init_dotdot rooted - length out) with 0 by lia. reflexivity.
Qed.

(** Reading back what the loop wrote rebuilds the state it was in. *)
Lemma canon_replay rooted out dotdot :
  canon rooted out dotdot ->
  forall X res,
    out = init_out rooted \/ at_elem_end X = true ->
    cleans rooted X out dotdot res ->
    cleans rooted (skipn (init_dotdot rooted) out ++ X)
           (init_out rooted) (init_dotdot rooted) res.
Proof.
  induction 1 as [| out dotdot Hr Hc IH Hlen | out dotdot e Hc IH He];
    intros X res HX H.
  - destruct rooted; exact H.
  - subst rooted.
    destruct HX as [HX | HX].
    { exfalso. apply (f_equal (@length ascii)) in HX.
      rewrite length_app in HX. simpl in HX. lia. }
    destruct (canon_sep _ _ _ Hc) as [Hs | (Hs & Hi & _)].
    + rewrite Hs, <- !app_assoc, (skipn_init_app _ _ _ _ Hc), <- !app_assoc.
      apply IH; [right; reflexivity |].
      apply cleans_slash, cleans_dots; [assumption | lia | exact H].
    + rewrite Hs, (skipn_init_app _ _ _ _ Hc), <- !app_assoc.
      apply IH; [left; exact Hi |].
      apply cleans_dots; [assumption | lia | exact H].
  - assert (at_elem_end X = true) as HX'.
    { destruct HX as [HX | HX]; [exfalso | exact HX].
      destruct He as (Hne & _).
      pose proof (canon_init_le _ _ _ Hc) as Hle.
      apply (f_equal (@length ascii)) in HX. rewrite length_app in HX.
      assert (length out <= length (sep rooted out)).
      { unfold sep. destruct (_ || _); rewrite ?length_app; lia. }
      destruct e; [congruence |]. destruct rooted; simpl in *; lia. }
    destruct (canon_sep _ _ _ Hc) as [Hs | (Hs & Hi & _)].
    + rewrite Hs, <- !app_assoc, (skipn_init_app _ _ _ _ Hc), <- !app_assoc.
      apply IH; [right; reflexivity |].
      apply cleans_slash, cleans_elem; [assumption | assumption |].
      exact H.
    + rewrite Hs, (skipn_init_app _ _ _ _ Hc), <- !app_assoc.
      apply IH; [left; exact Hi |].
      apply cleans_elem; [assumption | assumption |].
      exact H.
Qed.

(** A run that ends gives the result of the loop at any sufficient fuel. *)
Lemma cleans_run rooted rest out dotdot res n :
  cleans rooted rest out dotdot res -> length rest <= n ->
  clean_loop n rooted rest out dotdot = Some res.
Proof.
  intros [fuel H] Hn.
  destruct (clean_loop_total n rooted rest out dotdot Hn) as [res' H'].
  apply (clean_loop_mono _ (Nat.max fuel n)) in H; [| lia].
  pose proof (clean_loop_mono _ (Nat.max fuel n) _ _ _ _ _ H') as H''.
  rewrite H'' in H by lia. congruence.
Qed.

Lemma canon_not_rooted_hd out dotdot :
  canon false out dotdot -> out = [] \/ Ascii.eqb (char_at out 0) "/" = false.
Proof.
  induction 1 as [| out dotdot _ _ IH _ | out dotdot e _ IH He].
  - left. reflexivity.
  - right. rewrite sep_not_rooted.
    destruct out as [| c out]; [reflexivity |].
    destruct IH as [IH | IH]; [discriminate IH | exact IH].
  - right. rewrite sep_not_rooted.
    destruct out as [| c out].
    + destruct He as (Hne & Hns & _). destruct e; [congruence |].
      inversion Hns; subst. simpl. apply Ascii.eqb_neq. assumption.
    + destruct IH as [IH | IH]; [discriminate IH | exact IH].
Qed.

Lemma canon_last rooted out dotdot :
  canon rooted out dotdot ->
  out = init_out rooted \/ exists t c, out = t ++ [c] /\ c <> "/"%char.
Proof.
  destruct 1 as [| out dotdot _ _ _ | out dotdot e _ (Hne & Hns & _)].
  - left. reflexivity.
  - right. exists (sep rooted out ++ ["."%char]), "."%char.
    rewrite <- app_assoc. split; [reflexivity | discriminate].
  - right. destruct (exists_last Hne) as (t & c & ->).
    exists (sep rooted out ++ t), c. rewrite app_assoc.
    split; [reflexivity |].
    apply Forall_app in Hns as [_ Hc]. inversion Hc. assumption.
Qed.

(** The result of a successful call is ["."] or a canonical buffer. *)
Lemma get_clean_path_canon (p : cstring) :
  exists q, get_clean_path true (Some p) = Some q /\
    (q = ["."%char] \/
     exists dotdot, canon (Ascii.eqb (char_at q 0) "/") q dotdot /\ q <> []).
Proof.
  unfold get_clean_path. cbn [negb].
  destruct (Ascii.eqb (char_at p 0) "/") eqn:Hroot.
  - destruct (clean_loop_total (length p) true (skipn 1 p) ["/"%char] 1)
      as [res Hres].
    { rewrite length_skipn. lia. }
    rewrite Hres.
    destruct (clean_loop_canon _ _ _ _ _ _ (canon_init true) Hres)
      as (dd & Hc & _).
    destruct (canon_rooted_hd _ _ Hc) as [t ->]. simpl.
    eexists. split; [reflexivity |]. right. exists dd. split; [exact Hc | discriminate].
  - destruct (clean_loop_total (length p) false p [] 0) as [res Hres]; [lia |].
    rewrite Hres.
    destruct (clean_loop_canon _ _ _ _ _ _ (canon_init false) Hres)
      as (dd & Hc & _).
    eexists. split; [reflexivity |].
    destruct res as [| c res]; [left; reflexivity |]. right.
    destruct (canon_not_rooted_hd _ _ Hc) as [Hnil | Hhd]; [discriminate |].
    exists dd. cbn [length Nat.eqb]. rewrite Hhd. split; [exact Hc | discriminate].
Qed.

Lemma get_clean_path_fixed rooted q dotdot :
  canon rooted q dotdot -> q <> [] -> Ascii.eqb (char_at q 0) "/" = rooted ->
  get_clean_path true (Some q) = Some q.
Proof.
  intros Hc Hne Hroot. unfold get_clean_path. cbn [negb]. rewrite Hroot.
  assert (clean_loop (length q) rooted (skipn (init_dotdot rooted) q)
                     (init_out rooted) (init_dotdot rooted) = Some q) as Hrun.
  { apply cleans_run; [| rewrite length_skipn; lia].
    rewrite <- (app_nil_r (skipn _ q)).
    apply (canon_replay _ _ _ Hc); [right; reflexivity | apply cleans_nil]. }
  destruct rooted; cbn [init_dotdot init_out] in Hrun;
    rewrite ?skipn_O in Hrun; rewrite Hrun;
    (destruct q; [congruence | reflexivity]).
Qed.

(** *** A relative path cleaned after a clean rooted prefix *)

Lemma at_elem_end_app t x :
  at_elem_end t = true -> at_elem_end (t ++ "/"%char :: x) = true.
Proof. destruct t; intros H; [reflexivity | exact H]. Qed.

(** Once [dotdot] has moved, the buffer begins with a [..] element. *)
Lemma canon_starts_dotdot out dotdot :
  canon false out dotdot -> 0 < dotdot -> starts_dotdot out = true.
Proof.
  induction 1 as [| out dotdot _ Hc IH Hlen | out dotdot e Hc IH He];
    intros Hpos.
  - simpl in Hpos. lia.
  - rewrite sep_not_rooted. destruct out as [| c out]; [reflexivity |].
    cbn [length Nat.ltb Nat.leb]. simpl in Hlen.
    specialize (IH ltac:(lia)).
    destruct out as [| c2 out]; [discriminate IH |].
    cbn [starts_dotdot app] in *.
    apply andb_prop in IH as [-> Hend]. rewrite <- app_assoc.
    apply at_elem_end_app. exact Hend.
  - specialize (IH Hpos). rewrite sep_not_rooted.
    destruct out as [| c [| c2 out]]; try discriminate IH.
    cbn [length Nat.ltb Nat.leb starts_dotdot app] in *.
    apply andb_prop in IH as [-> Hend]. rewrite <- app_assoc.
    apply at_elem_end_app. exact Hend.
Qed.

Lemma canon_no_dots_elem out dotdot :
  canon false out dotdot -> dotdot = 0 -> out <> [] ->
  exists out0 e, out = sep false out0 ++ e /\ canon false out0 0 /\ elem_ok e.
Proof.
  destruct 1 as [| out dotdot _ Hc Hlen | out dotdot e Hc He];
    intros Hd Hne.
  - contradiction.
  - rewrite length_app in Hd. simpl in Hd. lia.
  - subst dotdot. eauto.
Qed.

Section Glue.
Variable base : cstring.
Hypothesis base_canon : canon true base 1.

Lemma glue_elem o e :
  elem_ok e -> glue base (sep false o ++ e) = sep true (glue base o) ++ e.
Proof.
  intros (Hne & _). rewrite sep_not_rooted.
  destruct o as [| c o]; cbn [length Nat.ltb Nat.leb glue app].
  - destruct e; [congruence | reflexivity].
  - destruct (canon_rooted_hd _ _ base_canon) as [t ->].
    assert (sep true ((sep true ("/"%char :: t)) ++ c :: o)
            = (sep true ("/"%char :: t) ++ c :: o) ++ ["/"%char]) as ->.
    { unfold sep at 1. cbn [andb negb orb].
      destruct (sep_length true ("/"%char :: t)) as [Hl _].
      rewrite length_app. cbn [length] in *.
      destruct (length (sep true ("/"%char :: t))); [lia |].
      rewrite Nat.add_succ_l, Nat.add_succ_r. reflexivity. }
    rewrite <- !app_assoc. reflexivity.
Qed.

Lemma glue_canon o dotdot :
  canon false o dotdot -> dotdot = 0 -> canon true (glue base o) 1.
Proof.
  induction 1 as [| out dotdot _ Hc IH Hlen | out dotdot e Hc IH He];
    intros Hd.
  - exact base_canon.
  - rewrite length_app in Hd. simpl in Hd. lia.
  - rewrite glue_elem by exact He. apply canon_elem; auto.
Qed.

(** The loop run on the rest of a path, from the state reached after the
    prefix, goes through the states of the run on the relative path
    alone, each continued from [base], as long as no [..] climbs out of
    the relative path. *)
Lemma clean_loop_glue fuel : forall rest o res,
  canon false o 0 ->
  clean_loop fuel false rest o 0 = Some res ->
  starts_dotdot res = false ->
  clean_loop fuel true rest (glue base o) 1 = Some (glue base res).
Proof.
  induction fuel as [| fuel IH]; intros rest o res Hc H Hres;
    destruct rest as [| c rest1]; cbn [clean_loop] in *;
    try (injection H as <-; reflexivity); try discriminate.
  destruct (Ascii.eqb c "/") eqn:Hslash; [eauto |].
  destruct (Ascii.eqb c "." && at_elem_end rest1) eqn:Hdot; [eauto |].
  destruct (Ascii.eqb c "." && Ascii.eqb (hd NUL rest1) "."
            && at_elem_end (tl rest1)) eqn:Hdd.
  - destruct (0 <? length o) eqn:Hw.
    + apply Nat.ltb_lt in Hw.
      destruct (canon_no_dots_elem _ _ Hc eq_refl)
        as (o0 & e & -> & Hc0 & He).
      { intros ->. simpl in Hw. lia. }
      rewrite backtrack_elem in H by assumption.
      rewrite glue_elem by exact He.
      pose proof (glue_canon _ _ Hc0 eq_refl) as Hg.
      assert ((1 <? length (sep true (glue base o0) ++ e)) = true) as ->.
      { apply Nat.ltb_lt. rewrite length_app.
        destruct (sep_length true (glue base o0)) as [Hl _].
        destruct (canon_rooted_hd _ _ Hg) as [t Ht].
        apply (f_equal (@length ascii)) in Ht. cbn [length] in Ht.
        destruct He as (Hne & _). destruct e; [congruence |].
        cbn [length]. lia. }
      rewrite backtrack_elem by assumption. eauto.
    + exfalso. destruct o as [| c0 o]; [| discriminate Hw].
      cbn [negb length app] in H.
      destruct (clean_loop_canon _ _ _ _ _ _
                  (canon_dots false [] 0 eq_refl (canon_init false) eq_refl)
                  H)
        as (dd & Hc' & Hle).
      cbn in Hle.
      rewrite (canon_starts_dotdot _ _ Hc') in Hres by lia. discriminate.
  - change (if false && negb (length o =? 1)
               || negb false && negb (length o =? 0)
            then o ++ ["/"%char] else o) with (sep false o) in H.
    change (if true && negb (length (glue base o) =? 1)
               || negb true && negb (length (glue base o) =? 0)
            then glue base o ++ ["/"%char] else glue base o)
      with (sep true (glue base o)).
    destruct (copy_elem_spec (c :: rest1) (sep false o))
      as (e & rest' & Hcp & Hr & Hns & Hend).
    rewrite Hcp in H. rewrite Hr, copy_elem_app by assumption.
    assert (elem_ok e) as He.
    { destruct e as [| c' e]; simpl in Hr.
      { subst rest'. simpl in Hend. congruence. }
      injection Hr as <- Hr. subst rest1.
      split; [discriminate |]. split; [exact Hns |]. split.
      + intros [= -> ->]. simpl in Hdot. rewrite Hend in Hdot. discriminate.
      + intros [= -> ->]. simpl in Hdd. rewrite Hend in Hdd. discriminate. }
    rewrite <- glue_elem by exact He.
    eapply IH; [| exact H | exact Hres]. apply canon_elem; assumption.
Qed.
End Glue.

(** Cleaning a relative path behind a clean rooted prefix cleans the
    relative path alone, unless it is empty or climbs out of itself. *)
Lemma get_clean_path_after_prefix base p q :
  get_clean_path true (Some base) = Some base ->
  Ascii.eqb (char_at base 0) "/" = true -> 1 < length base ->
  Ascii.eqb (char_at p 0) "/" = false ->
  get_clean_path true (Some p) = Some q ->
  q <> ["."%char] -> starts_dotdot q = false ->
  get_clean_path true (Some (base ++ "/"%char :: p))
  = Some (base ++ "/"%char :: q).
Proof.
  intros Hbase Hroot Hlen Hrel Hq Hdot Hdd.
  assert (canon true base 1) as Hc.
  { destruct (get_clean_path_canon base) as (b & Hb & [-> | (dd & Hc & _)]).
    - rewrite Hbase in Hb. injection Hb as ->. discriminate Hroot.
    - rewrite Hbase in Hb. injection Hb as <-. rewrite Hroot in Hc.
      rewrite (canon_rooted_dotdot _ _ Hc) in Hc. exact Hc. }
  unfold get_clean_path in Hq. cbn [negb] in Hq. rewrite Hrel in Hq.
  destruct (clean_loop (length p) false p [] 0) as [res |] eqn:Hres;
    [| discriminate].
  assert (res = q /\ res <> []) as [-> Hne].
  { destruct res; cbn in Hq; [congruence |].
    split; [congruence | discriminate]. }
  pose proof (clean_loop_glue base Hc _ _ _ _ (canon_init false) Hres Hdd)
    as Hrun.
  destruct (canon_rooted_hd _ _ Hc) as [t ->].
  unfold get_clean_path. cbn [negb app char_at nth].
  change (Ascii.eqb "/" "/") with true. cbv iota. cbn [skipn].
  rewrite (cleans_run true (t ++ "/"%char :: p) ["/"%char] 1
                      (glue ("/"%char :: t) q)).
  - unfold glue, sep. cbn [andb negb orb length].
    destruct q as [| c q]; [congruence |].
    destruct t as [| c' t]; [simpl in Hlen; lia |].
    simpl. rewrite <- app_assoc. reflexivity.
  - apply (canon_replay true _ _ Hc ("/"%char :: p));
      [right; reflexivity |].
    apply cleans_slash. exists (length p). exact Hrun.
  - simpl. lia.
Qed.

(** *** The buffer *)

(** The bytes written never outnumber the bytes read: [w <= r], with room
    for the slash that precedes the next element. *)
Lemma clean_loop_fits n fuel : forall rooted rest out dotdot res,
  length out + length rest <= n ->
  (length out + length rest < n \/ at_elem_end rest = true \/
   out = init_out rooted) ->
  clean_loop fuel rooted rest out dotdot = Some res -> length res <= n.
Proof.
  induction fuel as [| fuel IH]; intros rooted rest out dotdot res Hle Hroom H;
    destruct rest as [| c rest1]; cbn [clean_loop] in H;
    try (injection H as <-; simpl in Hle; lia); try discriminate.
  cbn [length] in *.
  destruct (Ascii.eqb c "/") eqn:Hslash.
  { eapply IH; [| | exact H]; [lia | left; lia]. }
  assert (length out + S (length rest1) < n \/ out = init_out rooted)
    as Hroom' by (cbn [at_elem_end] in Hroom; intuition congruence).
  clear Hroom.
  destruct (Ascii.eqb c "." && at_elem_end rest1) eqn:Hdot.
  { eapply IH; [| | exact H]; [lia | left; lia]. }
  destruct (Ascii.eqb c "." && Ascii.eqb (hd NUL rest1) "."
            && at_elem_end (tl rest1)) eqn:Hdd.
  - apply andb_prop in Hdd as [Hhd Hend]. apply andb_prop in Hhd as [_ Hhd].
    assert (S (length (tl rest1)) <= length rest1) as Htl.
    { destruct rest1; [discriminate Hhd | simpl; lia]. }
    destruct (dotdot <? length out).
    + eapply IH; [| | exact H]; rewrite ?length_firstn; [lia | left; lia].
    + destruct rooted; cbn [negb] in H.
      * eapply IH; [| | exact H]; [lia | left; lia].
      * rewrite <- sep_not_rooted in H.
        destruct (sep_length false out) as [Hs Hi].
        eapply IH; [| right; left; exact Hend | exact H].
        rewrite length_app. cbn [length].
        destruct Hroom' as [Hlt | Hinit]; [lia |].
        rewrite (Hi Hinit). lia.
  - change (if rooted && negb (length out =? 1)
               || negb rooted && negb (length out =? 0)
            then out ++ ["/"%char] else out) with (sep rooted out) in H.
    destruct (copy_elem_spec (c :: rest1) (sep rooted out))
      as (e & rest' & Hcp & Hr & Hns & Hend).
    rewrite Hcp in H.
    apply (f_equal (@length ascii)) in Hr.
    rewrite length_app in Hr. cbn [length] in Hr.
    destruct (sep_length rooted out) as [Hs Hi].
    eapply IH; [| right; left; exact Hend | exact H].
    rewrite length_app.
    destruct Hroom' as [Hlt | Hinit]; [lia |].
    rewrite (Hi Hinit). lia.
Qed.

(** The result is no longer than the path, except that the empty path
    gives ["."]: whenever the path is not empty, the result and its
    terminator fit in the [n + 1] bytes allocated. *)
Lemma get_clean_path_length p q :
  get_clean_path true (Some p) = Some q ->
  length q <= Nat.max 1 (length p).
Proof.
  unfold get_clean_path. cbn [negb].
  destruct (Ascii.eqb (char_at p 0) "/") eqn:Hroot.
  - destruct (clean_loop _ _ _ _ _) as [res |] eqn:Hres; [| discriminate].
    intros [= <-]. destruct p as [| c p]; [discriminate Hroot |].
    apply (clean_loop_fits (length (c :: p))) in Hres.
    + destruct res; simpl in *; lia.
    + simpl. rewrite skipn_O. lia.
    + right. right. reflexivity.
  - destruct (clean_loop _ _ _ _ _) as [res |] eqn:Hres; [| discriminate].
    intros [= <-].
    apply (clean_loop_fits (length p)) in Hres.
    + destruct res; simpl in *; lia.
    + simpl. lia.
    + right. right. reflexivity.
Qed.

(** C4. For every path [p], cleaning succeeds (the allocation granted)
    with a result [q] such that cleaning [q] gives [q] again; [q] ends in
    the separator only when it is the root ["/"]; and [q] is ["."] when
    the loop leaves the buffer empty, the buffer itself otherwise. *)
Theorem get_clean_path_idempotent (p : cstring) :
  exists q,
    get_clean_path true (Some p) = Some q /\
    get_clean_path true (Some q) = Some q /\
    (forall t, q = t ++ ["/"%char] -> q = ["/"%char]) /\
    q <> [] /\
    (forall out,
       cleans (Ascii.eqb (char_at p 0) "/")
              (skipn (init_dotdot (Ascii.eqb (char_at p 0) "/")) p)
              (init_out (Ascii.eqb (char_at p 0) "/"))
              (init_dotdot (Ascii.eqb (char_at p 0) "/")) out ->
       q = match out with [] => ["."%char] | _ => out end).
Proof.
  destruct (get_clean_path_canon p) as (q & Hq & Hshape).
  exists q. split; [exact Hq |].
  split; [| split; [| split]].
  - destruct Hshape as [-> | (dd & Hc & Hne)]; [reflexivity |].
    eapply get_clean_path_fixed; eauto.
  - intros t Ht. destruct Hshape as [-> | (dd & Hc & Hne)].
    + destruct t as [| ? [| ? ?]]; discriminate Ht.
    + destruct (canon_last _ _ _ Hc) as [Hi | (t' & c & Heq & Hc')].
      * rewrite Hi in *. destruct (Ascii.eqb _ _); [reflexivity |].
        simpl in Hne. congruence.
      * rewrite Heq in Ht. apply app_inj_tail in Ht as [_ ->]. congruence.
  - destruct Hshape as [-> | (dd & Hc & Hne)]; [discriminate | exact Hne].
  - intros out Hout. unfold get_clean_path in Hq. cbn [negb] in Hq.
    destruct (Ascii.eqb (char_at p 0) "/");
      cbn [init_dotdot init_out] in Hout; rewrite ?skipn_O in Hout;
      rewrite (cleans_run _ _ _ _ _ (length p) Hout) in Hq
        by (rewrite ?length_skipn; simpl; lia);
      injection Hq as <-; destruct out; reflexivity.
Qed.

Lemma get_clean_path_idempotent_witness :
  (exists q,
     get_clean_path true (Some (cstr "a/..")) = Some q /\
     get_clean_path true (Some q) = Some q /\ q = cstr ".") /\
  (exists q,
     get_clean_path true (Some (cstr "//")) = Some q /\
     get_clean_path true (Some q) = Some q /\ q = cstr "/").
Proof.
  split.
  - destruct (get_clean_path_idempotent (cstr "a/.."))
      as (q & Hq & Hidem & _ & _ & Hout).
    exists q. split; [exact Hq |]. split; [exact Hidem |].
    apply (Hout []). exists 4. reflexivity.
  - destruct (get_clean_path_idempotent (cstr "//"))
      as (q & Hq & Hidem & Hlast & _ & _).
    exists q. split; [exact Hq |]. split; [exact Hidem |].
    apply (Hlast []).
    assert (get_clean_path true (Some (cstr "//")) = Some (cstr "/")) as Hv
      by reflexivity.
    rewrite Hv in Hq. injection Hq as <-. reflexivity.
Defined.
End PathCleaner.

(** ** Path classifier *)

Section PathClassifier.

Example strtok_all_examples :
  strtok_all "," (cstr ",,tmp,log,,x,") = [cstr "tmp"; cstr "log"; cstr "x"] /\
  strtok_all "," (cstr ",") = [] /\
  strtok_all "," (cstr "") = [].
Proof. repeat split; reflexivity. Qed.

(** The classifier with the mount point ["/cfs"] and the ignore list
    ["tmp,log"]. *)
Example get_cfs_path_examples :
  let g := mk_client_info ∅ ∅ None false (cstr "/cfs") (cstr "tmp,log") in
  get_cfs_path g all_ok (Some (cstr "/cfs")) = Some (cstr "/") /\
  get_cfs_path g all_ok (Some (cstr "/cfs/")) = Some (cstr "/") /\
  get_cfs_path g all_ok (Some (cstr "/cfs/x/../y")) = Some (cstr "/y") /\
  get_cfs_path g all_ok (Some (cstr "/cfs/tmp")) = None /\
  get_cfs_path g all_ok (Some (cstr "/cfs/log/a")) = None /\
  get_cfs_path g all_ok (Some (cstr "/cfs/tmpx")) = Some (cstr "/tmpx") /\
  get_cfs_path g all_ok (Some (cstr "/etc/passwd")) = None /\
  get_cfs_path g all_ok (Some (cstr "x")) = None.
Proof. repeat split; reflexivity. Qed.

(** C10. A [NULL] pathname is classified local; and a relative pathname,
    when the working directory is not inside the mount scope, is
    classified local at once: whatever the mount point, the ignore list,
    the stored working directory and the allocator would do, since none of
    them is consulted. *)
Theorem get_cfs_path_relative_outside (g : client_info_t) (a : alloc_t)
        (p : cstring) :
  get_cfs_path g a None = None /\
  (Ascii.eqb (char_at p 0) "/" = false -> in_cfs g = false ->
   get_cfs_path g a (Some p) = None).
Proof.
  split; [reflexivity |]. intros Hrel Hin. unfold get_cfs_path.
  rewrite Hrel, Hin. reflexivity.
Qed.

Lemma get_cfs_path_relative_outside_witness :
  get_cfs_path
    (mk_client_info ∅ ∅ (Some (cstr "/cfs/data")) false (cstr "/cfs") [])
    all_ok (Some (cstr "x/y")) = None.
Proof.
  apply (get_cfs_path_relative_outside
           (mk_client_info ∅ ∅ (Some (cstr "/cfs/data")) false
                           (cstr "/cfs") [])
           all_ok (cstr "x/y")); reflexivity.
Defined.

(** C6, as stated, fails: under the mount point ["/cfs"], the remote path
    ["/cfs/a"] with a failed allocation (in the cleaner, for the copy of
    the ignore list, or for the result) gets the very answer that the
    local path ["/etc/passwd"] gets, [NULL]. *)
Lemma get_cfs_path_oom_same_as_local :
  get_cfs_path (mk_client_info ∅ ∅ None false (cstr "/cfs") []) all_ok
               (Some (cstr "/cfs/a")) = Some (cstr "/a") /\
  get_cfs_path (mk_client_info ∅ ∅ None false (cstr "/cfs") []) all_ok
               (Some (cstr "/etc/passwd")) = None /\
  get_cfs_path (mk_client_info ∅ ∅ None false (cstr "/cfs") [])
               (mk_alloc false true true true) (Some (cstr "/cfs/a"))
  = get_cfs_path (mk_client_info ∅ ∅ None false (cstr "/cfs") []) all_ok
                 (Some (cstr "/etc/passwd")) /\
  get_cfs_path (mk_client_info ∅ ∅ None false (cstr "/cfs") [])
               (mk_alloc true true false true) (Some (cstr "/cfs/a"))
  = get_cfs_path (mk_client_info ∅ ∅ None false (cstr "/cfs") []) all_ok
                 (Some (cstr "/etc/passwd")) /\
  get_cfs_path (mk_client_info ∅ ∅ None false (cstr "/cfs") [])
               (mk_alloc true true true false) (Some (cstr "/cfs/a"))
  = get_cfs_path (mk_client_info ∅ ∅ None false (cstr "/cfs") []) all_ok
                 (Some (cstr "/etc/passwd")).
Proof. repeat split; vm_compute; reflexivity. Qed.

(** C6, amended. When an allocation that the call reaches fails (the
    buffer of the cleaner, the copy of the ignore list, the result buffer
    or, for a relative path inside the mount scope, the buffer of the
    concatenation), [get_cfs_path] returns [NULL]: the value it also
    returns for a path that is not in CFS. *)
Theorem get_cfs_path_alloc_failure (g : client_info_t) (a : alloc_t)
        (p : cstring) :
  (clean_ok a = false -> get_cfs_path g a (Some p) = None) /\
  (Ascii.eqb (char_at p 0) "/" = true -> strdup_ok a = false ->
   get_cfs_path g a (Some p) = None) /\
  (Ascii.eqb (char_at p 0) "/" = true -> result_ok a = false ->
   get_cfs_path g a (Some p) = None) /\
  (Ascii.eqb (char_at p 0) "/" = false -> cat_ok a = false ->
   get_cfs_path g a (Some p) = None).
Proof.
  unfold get_cfs_path. split; [| split; [| split]].
  - intros ->. unfold get_clean_path. cbn [negb].
    destruct (negb _ && negb _); reflexivity.
  - intros -> ->. cbn [negb andb].
    destruct (get_clean_path _ _); reflexivity.
  - intros -> ->. cbn [negb andb].
    destruct (get_clean_path _ _); [| reflexivity].
    destruct (negb (strdup_ok a)); [reflexivity |].
    destruct (negb _); reflexivity.
  - intros -> ->. cbn [negb andb].
    destruct (in_cfs g); cbn [negb]; [| reflexivity].
    destruct (get_clean_path _ _); [| reflexivity].
    unfold cat_path. destruct (cwd g); reflexivity.
Qed.

Lemma get_cfs_path_alloc_failure_witness :
  get_cfs_path (mk_client_info ∅ ∅ (Some (cstr "/a")) true (cstr "/cfs") [])
               (mk_alloc false true true true) (Some (cstr "/cfs/a")) = None /\
  get_cfs_path (mk_client_info ∅ ∅ (Some (cstr "/a")) true (cstr "/cfs") [])
               (mk_alloc true true false true) (Some (cstr "/cfs/a")) = None /\
  get_cfs_path (mk_client_info ∅ ∅ (Some (cstr "/a")) true (cstr "/cfs") [])
               (mk_alloc true true true false) (Some (cstr "/cfs/a")) = None /\
  get_cfs_path (mk_client_info ∅ ∅ (Some (cstr "/a")) true (cstr "/cfs") [])
               (mk_alloc true false true true) (Some (cstr "b")) = None.
Proof.
  split; [| split; [| split]].
  - destruct (get_cfs_path_alloc_failure
                (mk_client_info ∅ ∅ (Some (cstr "/a")) true (cstr "/cfs") [])
                (mk_alloc false true true true) (cstr "/cfs/a"))
      as (H & _).
    apply H. reflexivity.
  - destruct (get_cfs_path_alloc_failure
                (mk_client_info ∅ ∅ (Some (cstr "/a")) true (cstr "/cfs") [])
                (mk_alloc true true false true) (cstr "/cfs/a"))
      as (_ & H & _).
    apply H; reflexivity.
  - destruct (get_cfs_path_alloc_failure
                (mk_client_info ∅ ∅ (Some (cstr "/a")) true (cstr "/cfs") [])
                (mk_alloc true true true false) (cstr "/cfs/a"))
      as (_ & _ & H & _).
    apply H; reflexivity.
  - destruct (get_cfs_path_alloc_failure
                (mk_client_info ∅ ∅ (Some (cstr "/a")) true (cstr "/cfs") [])
                (mk_alloc true false true true) (cstr "b"))
      as (_ & _ & _ & H).
    apply H; reflexivity.
Defined.

(** *** The absolute branch against the design *)

Lemma strip_prefix_app m s t : strip_prefix m s = Some t -> s = m ++ t.
Proof.
  revert s. induction m as [| c m IH]; intros [| d s] H; simpl in *;
    try congruence.
  destruct (Ascii.eqb_spec d c); [subst | discriminate].
  rewrite (IH _ H). reflexivity.
Qed.

Lemma strncmp_eq_strip_prefix m s :
  strncmp_eq s m (length m) = match strip_prefix m s with
                              | Some _ => true
                              | None => false
                              end.
Proof.
  revert s. induction m as [| c m IH]; intros [| d s]; simpl;
    try reflexivity.
  destruct (Ascii.eqb d c); simpl; [apply IH | reflexivity].
Qed.

Lemma char_at_app_r m t i : char_at (m ++ t) (length m + i) = char_at t i.
Proof.
  unfold char_at. rewrite app_nth2 by lia. f_equal. lia.
Qed.

(** The absolute branch in terms of the cleaned path [r]: the comparison
    with the mount point, then the ignore list or the boundary test, then
    the remainder. *)
Lemma get_cfs_path_absolute g p r :
  Ascii.eqb (char_at p 0) "/" = true ->
  get_clean_path true (Some p) = Some r ->
  get_cfs_path g all_ok (Some p) =
  match strip_prefix (mount_point g) r with
  | None => None
  | Some t =>
      if (if 0 <? length (ignore_path g)
          then ignore_loop r (length (mount_point g))
                           (strtok_all "," (ignore_path g)) false
          else Ascii.eqb (hd NUL t) NUL || Ascii.eqb (hd NUL t) "/")
      then Some (match t with [] => ["/"%char] | _ => t end)
      else None
  end.
Proof.
  intros Habs Hclean. unfold get_cfs_path.
  rewrite Habs. cbn [negb andb all_ok clean_ok strdup_ok result_ok].
  rewrite Hclean. rewrite strncmp_eq_strip_prefix.
  destruct (strip_prefix (mount_point g) r) as [t |] eqn:Hs; [| reflexivity].
  apply strip_prefix_app in Hs. subst r.
  replace (char_at (mount_point g ++ t) (length (mount_point g)))
    with (hd NUL t).
  2:{ rewrite <- (Nat.add_0_r (length (mount_point g))), char_at_app_r.
      destruct t; reflexivity. }
  match goal with |- context [if ?b then Some _ else None] =>
    destruct b end; cbn [negb]; [| reflexivity].
  rewrite length_app, skipn_app, skipn_all, Nat.sub_diag.
  replace (length (mount_point g) + length t - length (mount_point g))
    with (length t) by lia.
  cbn [app skipn]. rewrite firstn_all.
  destruct t; reflexivity.
Qed.

Lemma strip_prefix_app_l m t : strip_prefix m (m ++ t) = Some t.
Proof.
  induction m as [| c m IH]; simpl; [destruct t; reflexivity |].
  rewrite Ascii.eqb_refl. exact IH.
Qed.

Lemma token_matches_first_segment token : forall t,
  no_slash token -> no_nul t ->
  token_matches t token = cstring_eqb (first_segment t) token.
Proof.
  unfold token_matches, cstring_eqb.
  induction token as [| a token IH]; intros t Hns Hnul.
  - cbn [length strncmp_eq andb]. destruct t as [| b t]; [reflexivity |].
    inversion Hnul; subst. cbn [char_at nth first_segment].
    destruct (Ascii.eqb_spec b NUL); [contradiction |].
    destruct (Ascii.eqb_spec b "/"); cbn [orb];
      destruct (List.list_eq_dec _ _ _); congruence.
  - inversion Hns as [| ? ? Ha Hns']; subst.
    destruct t as [| b t].
    + reflexivity.
    + inversion Hnul as [| ? ? Hb Hnul']; subst.
      cbn [length strncmp_eq first_segment].
      change (char_at (b :: t) (S (length token)))
        with (char_at t (length token)).
      destruct (Ascii.eqb_spec b a) as [-> | Hba]; cbn [andb].
      * apply Ascii.eqb_neq in Ha. rewrite Ha.
        rewrite (IH t Hns' Hnul').
        destruct (List.list_eq_dec _ (first_segment t) token);
          destruct (List.list_eq_dec _ (a :: first_segment t) (a :: token));
          congruence.
      * destruct (Ascii.eqb b "/");
          destruct (List.list_eq_dec _ _ _); congruence.
Qed.

(** The token loop, when the mount point is followed by a separator: with
    at least one token, the path stays remote exactly when no token
    passes the test. *)
Lemma ignore_loop_separator m t tokens :
  tokens <> [] ->
  ignore_loop (m ++ "/"%char :: t) (length m) tokens false
  = negb (existsb (token_matches t) tokens).
Proof.
  intros Hne.
  assert (forall b, ignore_loop (m ++ "/"%char :: t) (length m) tokens b
                    = match tokens with
                      | [] => b
                      | _ => negb (existsb (token_matches t) tokens)
                      end) as H.
  { clear Hne. induction tokens as [| tok tokens IH]; intros b;
      [reflexivity |].
    cbn [ignore_loop existsb].
    replace (char_at (m ++ "/"%char :: t) (length m)) with "/"%char.
    2:{ rewrite <- (Nat.add_0_r (length m)), char_at_app_r. reflexivity. }
    replace (skipn (length m + 1) (m ++ "/"%char :: t)) with t.
    2:{ rewrite skipn_app, skipn_all2 by lia.
        replace (length m + 1 - length m) with 1 by lia. reflexivity. }
    replace (char_at (m ++ "/"%char :: t) (length m + 1 + length tok))
      with (char_at t (length tok)).
    2:{ rewrite <- Nat.add_assoc, char_at_app_r. reflexivity. }
    change (Ascii.eqb "/" "/") with true. cbn [andb].
    fold (token_matches t tok).
    destruct (token_matches t tok); cbn [orb negb]; [reflexivity |].
    rewrite IH. destruct tokens; reflexivity. }
  rewrite H. destruct tokens; [congruence | reflexivity].
Qed.

(** The token loop, when the mount point is not followed by a separator:
    no token can pass the test, and one token is enough to leave the path
    remote. *)
Lemma ignore_loop_no_separator p len tokens :
  Ascii.eqb (char_at p len) "/" = false -> tokens <> [] ->
  ignore_loop p len tokens false = true.
Proof.
  intros Hc Hne.
  assert (forall b, ignore_loop p len tokens b
                    = match tokens with [] => b | _ => true end) as H.
  { clear Hne. induction tokens as [| tok tokens IH]; intros b;
      [reflexivity |].
    cbn [ignore_loop]. rewrite Hc. cbn [andb]. rewrite IH.
    destruct tokens; reflexivity. }
  rewrite H. destruct tokens; [congruence | reflexivity].
Qed.

Lemma strtok_all_nonempty delim s :
  strtok_all delim s <> [] -> (0 <? length s) = true.
Proof. destruct s; [intros H; exfalso; apply H |]; reflexivity. Qed.

(** With an empty ignore list the classifier does what the design says,
    on every clean absolute path. *)
Lemma get_cfs_path_no_ignore_list g p :
  Ascii.eqb (char_at p 0) "/" = true ->
  get_clean_path true (Some p) = Some p -> no_nul p ->
  ignore_path g = [] ->
  get_cfs_path g all_ok (Some p) = classify_spec (mount_point g) [] p.
Proof.
  intros Habs Hclean Hnul Hign.
  rewrite (get_cfs_path_absolute g p p Habs Hclean), Hign.
  unfold classify_spec. cbn [length Nat.ltb Nat.leb existsb].
  destruct (strip_prefix (mount_point g) p) as [t |] eqn:Hs; [| reflexivity].
  apply strip_prefix_app in Hs. subst p.
  apply Forall_app in Hnul as [_ Hnul].
  destruct t as [| c t]; [reflexivity |]. inversion Hnul; subst.
  cbn [hd]. destruct (Ascii.eqb_spec c NUL); [contradiction |].
  cbn [orb]. destruct (Ascii.eqb c "/"); reflexivity.
Qed.

(** With an ignore list that has at least one entry, it does so on the
    paths that are the mount point or continue it after a separator
    (entries being single path segments). *)
Lemma get_cfs_path_bounded_prefix g p t :
  Ascii.eqb (char_at p 0) "/" = true ->
  get_clean_path true (Some p) = Some p -> no_nul p ->
  strtok_all "," (ignore_path g) <> [] ->
  Forall no_slash (strtok_all "," (ignore_path g)) ->
  strip_prefix (mount_point g) p = Some t ->
  Ascii.eqb (hd "/"%char t) "/" = true ->
  get_cfs_path g all_ok (Some p)
  = classify_spec (mount_point g) (strtok_all "," (ignore_path g)) p.
Proof.
  intros Habs Hclean Hnul Htok Hslash Hs Hsep.
  rewrite (get_cfs_path_absolute g p p Habs Hclean).
  unfold classify_spec. rewrite Hs.
  rewrite (strtok_all_nonempty _ _ Htok).
  apply strip_prefix_app in Hs. subst p.
  apply Forall_app in Hnul as [_ Hnul].
  destruct t as [| c t].
  - rewrite ignore_loop_no_separator; [reflexivity | | exact Htok].
    rewrite app_nil_r. unfold char_at. rewrite nth_overflow by lia.
    reflexivity.
  - cbn [hd] in Hsep. rewrite Hsep. apply Ascii.eqb_eq in Hsep. subst c.
    rewrite (ignore_loop_separator _ _ _ Htok).
    inversion Hnul as [| ? ? _ Hnul']; subst.
    assert (forall toks, Forall no_slash toks ->
              existsb (token_matches t) toks
              = existsb (cstring_eqb (first_segment t)) toks) as Hex.
    { induction 1 as [| tok toks Htk _ IH]; [reflexivity |].
      cbn [existsb]. rewrite IH.
      rewrite (token_matches_first_segment tok t Htk Hnul'). reflexivity. }
    rewrite (Hex _ Hslash). destruct (existsb _ _); reflexivity.
Qed.

(** With an ignore list that has at least one entry, a path that only
    shares a string prefix with the mount point is remote. *)
Lemma unbounded_prefix_is_remote g p c t :
  Ascii.eqb (char_at p 0) "/" = true ->
  get_clean_path true (Some p) = Some p ->
  strtok_all "," (ignore_path g) <> [] ->
  strip_prefix (mount_point g) p = Some (c :: t) -> c <> "/"%char ->
  get_cfs_path g all_ok (Some p) = Some (c :: t) /\
  classify_spec (mount_point g) (strtok_all "," (ignore_path g)) p = None.
Proof.
  intros Habs Hclean Htok Hs Hc. apply Ascii.eqb_neq in Hc.
  rewrite (get_cfs_path_absolute g p p Habs Hclean).
  unfold classify_spec. rewrite Hs, Hc.
  rewrite (strtok_all_nonempty _ _ Htok).
  apply strip_prefix_app in Hs. subst p.
  rewrite ignore_loop_no_separator; [split; reflexivity | | exact Htok].
  rewrite <- (Nat.add_0_r (length (mount_point g))), char_at_app_r.
  exact Hc.
Qed.

(** C1. With the mount point ["/cfs"] and the ignore list ["tmp"], the
    cleaned absolute path ["/cfsfoo"], which only shares a string prefix
    with the mount point, is classified remote with the remainder
    ["foo"]; with an empty ignore list the same path is local. *)
Theorem get_cfs_path_unbounded_prefix :
  get_clean_path true (Some (cstr "/cfsfoo")) = Some (cstr "/cfsfoo") /\
  get_cfs_path (mk_client_info ∅ ∅ None false (cstr "/cfs") (cstr "tmp"))
               all_ok (Some (cstr "/cfsfoo")) = Some (cstr "foo") /\
  get_cfs_path (mk_client_info ∅ ∅ None false (cstr "/cfs") [])
               all_ok (Some (cstr "/cfsfoo")) = None.
Proof. repeat split; vm_compute; reflexivity. Qed.



End PathClassifier.

(** ** Hybrid read *)

Section HybridRead.
Local Open Scope Z_scope.

Lemma fallback_calls_app tr1 tr2 :
  fallback_calls (tr1 ++ tr2) = (fallback_calls tr1 + fallback_calls tr2)%nat.
Proof. unfold fallback_calls. rewrite List.filter_app, length_app. reflexivity. Qed.

Lemma round_trips_app tr1 tr2 :
  round_trips (tr1 ++ tr2) = (round_trips tr1 + round_trips tr2)%nat.
Proof. unfold round_trips. rewrite List.filter_app, length_app. reflexivity. Qed.

(** The loop never calls the fallback. *)
Lemma read_loop_no_fallback w : forall reqs i read tr,
  fallback_calls (snd (read_loop w i reqs read tr)) = fallback_calls tr.
Proof.
  induction reqs as [| rq reqs IH]; intros i read tr; cbn [read_loop];
    [reflexivity |].
  repeat match goal with
         | |- context [if ?b then _ else _] => destruct b
         end;
    rewrite ?IH; cbn [snd]; rewrite ?fallback_calls_app;
    cbn; lia.
Qed.

Lemma fast_path_no_fallback w count offset :
  fallback_calls (snd (fast_path w count offset)) = 0%nat.
Proof.
  unfold fast_path. destruct (cfs_read_requests w) as [req_count req].
  apply read_loop_no_fallback.
Qed.

Lemma to_ssize_t_upper z : to_ssize_t z < 2 ^ 63.
Proof.
  unfold to_ssize_t, wrap_signed.
  pose proof (Z.mod_pos_bound (z + 2 ^ (64 - 1)) (2 ^ 64) ltac:(lia)). lia.
Qed.

(** The running total stays an [ssize_t]. *)
Lemma read_loop_ssize_t w : forall reqs i read tr,
  read < 2 ^ 63 -> fst (read_loop w i reqs read tr) < 2 ^ 63.
Proof.
  induction reqs as [| rq reqs IH]; intros i read tr Hr; cbn [read_loop];
    [exact Hr |].
  repeat match goal with
         | |- context [if ?b then _ else _] => destruct b
         end;
    try exact Hr; try (apply IH); cbn [fst]; apply to_ssize_t_upper.
Qed.

Lemma fast_path_ssize_t w count offset :
  fst (fast_path w count offset) < 2 ^ 63.
Proof.
  unfold fast_path. destruct (cfs_read_requests w) as [req_count req].
  apply read_loop_ssize_t. lia.
Qed.

(** With descriptors and replies of at most [B] bytes, few enough for the
    total to fit an [ssize_t], the running total never goes negative. *)
Lemma read_loop_nonneg w B : forall reqs i read tr,
  (forall rq, In rq reqs -> 0 <= size rq <= B) ->
  (forall k, get_read_reply w k <= B) ->
  0 <= read -> read + Z.of_nat (length reqs) * B <= SSIZE_MAX ->
  0 <= fst (read_loop w i reqs read tr).
Proof.
  unfold SSIZE_MAX.
  induction reqs as [| rq reqs IH]; intros i read tr Hsz Hre Hr Hmax;
    cbn [read_loop]; [exact Hr |].
  assert (0 <= size rq <= B) as Hrq by (apply Hsz; left; reflexivity).
  assert (forall rq', In rq' reqs -> 0 <= size rq' <= B) as Hsz'
    by (intros rq' Hin; apply Hsz; right; exact Hin).
  pose proof (Hre i) as Hrei. cbn [length] in Hmax.
  rewrite Nat2Z.inj_succ, Z.mul_succ_l in Hmax.
  assert (0 <= Z.of_nat (length reqs) * B) as Hpos by nia.
  destruct (size rq =? 0); [exact Hr |].
  destruct (partition_id rq =? 0).
  { rewrite to_ssize_t_id by (unfold is_ssize_t, SSIZE_MAX; lia).
    apply IH; try assumption; lia. }
  destruct (negb (new_read_packet w i)); [exact Hr |].
  destruct (get_conn w i <? 0); [exact Hr |].
  destruct (write_sock w i <? 0); [exact Hr |].
  destruct (Z.ltb_spec (get_read_reply w i) 0) as [| Hge]; [exact Hr |].
  assert (to_ssize_t (read + get_read_reply w i)
          = read + get_read_reply w i) as ->
    by (apply to_ssize_t_id; unfold is_ssize_t, SSIZE_MAX; lia).
  destruct (negb _); [cbn [fst]; lia |].
  apply IH; try assumption; lia.
Qed.

Lemma fast_path_nonneg w count offset B :
  (forall rq, In rq (snd (cfs_read_requests w)) -> 0 <= size rq <= B) ->
  (forall k, get_read_reply w k <= B) ->
  Z.of_nat max_count * B <= SSIZE_MAX ->
  0 <= fst (fast_path w count offset).
Proof.
  intros Hsz Hre Hmax. unfold fast_path.
  destruct (cfs_read_requests w) as [req_count req]. cbn [snd] in Hsz.
  apply (read_loop_nonneg w B); try assumption; try lia.
  - intros rq Hin. apply Hsz.
    apply list_elem_of_In, (subseteq_take max_count),
      (subseteq_take (Z.to_nat req_count)), list_elem_of_In.
    exact Hin.
  - assert (length (firstn (Z.to_nat req_count) (firstn max_count req))
            <= max_count)%nat as Hlen.
    { rewrite !length_firstn. lia. }
    unfold SSIZE_MAX, max_count in *.
    destruct (Z.le_gt_cases 0 B); nia.
Qed.

(** The comparison [read < count] on a total that is not negative. *)
Lemma cfs_pread_sock_below_count w count offset read tr :
  fast_path w count offset = (read, tr) -> 0 <= read < count ->
  cfs_pread_sock w count offset
    = (cfs_pread w, tr ++ [ev_cfs_pread count offset]).
Proof.
  intros Hfast Hlt. unfold cfs_pread_sock. rewrite Hfast.
  assert (to_size_t read = read) as ->.
  { pose proof (fast_path_ssize_t w count offset) as Hup.
    rewrite Hfast in Hup. cbn [fst] in Hup.
    unfold to_size_t. apply Z.mod_small. lia. }
  assert ((read <? count) = true) as -> by lia. reflexivity.
Qed.

Lemma read_loop_cut_short w i rq reqs read tr :
  cut_short w i rq -> fst (read_loop w i (rq :: reqs) read tr) = read.
Proof.
  intros Hcut. cbn [read_loop].
  destruct (Z.eqb_spec (size rq) 0) as [| Hsz]; [reflexivity |].
  destruct Hcut as [? | [Hp Hcut]]; [contradiction |].
  apply Z.eqb_neq in Hp. rewrite Hp.
  destruct (new_read_packet w i); cbn [negb]; [| reflexivity].
  destruct (Z.ltb_spec (get_conn w i) 0); [reflexivity |].
  destruct (Z.ltb_spec (write_sock w i) 0); [reflexivity |].
  destruct (Z.ltb_spec (get_read_reply w i) 0); [reflexivity |].
  destruct Hcut as [? | [? | [? | ?]]]; [discriminate | lia | lia | lia].
Qed.

Lemma total_size_holes_served w : forall reqs i,
  (forall k rq, reqs !! k = Some rq -> hole rq \/ served w (i + k) rq) ->
  0 <= total_size reqs.
Proof.
  induction reqs as [| rq reqs IH]; intros i H; cbn [total_size fold_right];
    [lia |].
  assert (0 < size rq) as Hsz
    by (destruct (H 0%nat rq eq_refl) as [(Hs & _) | (Hs & _)]; exact Hs).
  specialize (IH (S i)). unfold total_size in IH.
  assert (0 <= fold_right (fun rq acc => size rq + acc) 0 reqs); [| lia].
  apply IH. intros k rq' Hk. replace (S i + k)%nat with (i + S k)%nat by lia.
  apply H. exact Hk.
Qed.

(** The loop over a run of descriptors that are holes or are served goes
    on with what follows them, their lengths added to the total. *)
Lemma read_loop_prefix w rest : forall done i read tr,
  (forall k rq, done !! k = Some rq -> hole rq \/ served w (i + k) rq) ->
  0 <= read -> read + total_size done <= SSIZE_MAX ->
  exists tr',
    read_loop w i (done ++ rest) read tr
    = read_loop w (i + length done) rest (read + total_size done)
                (tr ++ tr').
Proof.
  induction done as [| rq done IH]; intros i read tr H Hr Hmax.
  - exists []. cbn [app length total_size fold_right].
    rewrite Nat.add_0_r, Z.add_0_r, app_nil_r. reflexivity.
  - assert (forall k rq', done !! k = Some rq' ->
                          hole rq' \/ served w (S i + k) rq') as H'.
    { intros k rq' Hk. replace (S i + k)%nat with (i + S k)%nat by lia.
      apply H. exact Hk. }
    pose proof (total_size_holes_served w done (S i) H') as Hpos.
    change (total_size (rq :: done)) with (size rq + total_size done) in *.
    unfold SSIZE_MAX in *.
    change ((rq :: done) ++ rest) with (rq :: (done ++ rest)).
    cbn [read_loop length]. rewrite Nat.add_succ_r, Z.add_assoc.
    destruct (H 0%nat rq eq_refl)
      as [(Hsz & Hp) | (Hsz & Hp & Hpk & Hconn & Hwr & Hre)].
    + rewrite Hp. assert ((size rq =? 0) = false) as -> by lia.
      cbn [Z.eqb].
      rewrite to_ssize_t_id by (unfold is_ssize_t, SSIZE_MAX; lia).
      destruct (IH (S i) (read + size rq) (tr ++ [ev_memset read (size rq)])
                   H' ltac:(lia) ltac:(unfold SSIZE_MAX; lia)) as [tr' ->].
      exists (ev_memset read (size rq) :: tr').
      rewrite <- app_assoc. reflexivity.
    + rewrite Nat.add_0_r in *. rewrite Hre.
      apply Z.eqb_neq in Hp. rewrite Hp, Hpk.
      assert ((size rq =? 0) = false) as -> by lia.
      assert ((get_conn w i <? 0) = false) as -> by lia.
      assert ((write_sock w i <? 0) = false) as -> by lia.
      assert ((size rq <? 0) = false) as -> by lia.
      assert (to_size_t (size rq) = size rq) as ->.
      { unfold to_size_t. apply Z.mod_small. lia. }
      rewrite Z.eqb_refl. cbn [negb].
      rewrite to_ssize_t_id by (unfold is_ssize_t, SSIZE_MAX; lia).
      destruct (IH (S i) (read + size rq) (tr ++ exchange i)
                   H' ltac:(lia) ltac:(unfold SSIZE_MAX; lia)) as [tr' ->].
      exists (exchange i ++ tr'). rewrite <- app_assoc. reflexivity.
Qed.

(** Where the loop ends, the total grows by the bytes of a reply of the
    wrong length and by nothing else: no status of a failed call is
    added to it or put in its place. *)
Lemma read_loop_stops_at w i rest a read tr :
  stops_at w i rest a -> 0 <= read -> read + a <= SSIZE_MAX ->
  fst (read_loop w i rest read tr) = read + a.
Proof.
  intros Hstop Hr Hmax. destruct rest as [| rq rest]; cbn [stops_at] in Hstop.
  - subst a. cbn. lia.
  - destruct Hstop as [[Hcut ->] | (Hsz & Hp & Hpk & Hconn & Hwr & Hre & Ha & Hne)].
    + rewrite (read_loop_cut_short _ _ _ _ _ _ Hcut). lia.
    + unfold SSIZE_MAX in Hmax. cbn [read_loop]. rewrite Hre.
      apply Z.eqb_neq in Hp. rewrite Hp, Hpk.
      assert ((size rq =? 0) = false) as -> by lia.
      assert ((get_conn w i <? 0) = false) as -> by lia.
      assert ((write_sock w i <? 0) = false) as -> by lia.
      assert ((a <? 0) = false) as -> by lia.
      assert (to_size_t a = a) as ->.
      { unfold to_size_t. apply Z.mod_small. lia. }
      assert ((a =? size rq) = false) as -> by lia.
      cbn [negb fst]. apply to_ssize_t_id. unfold is_ssize_t, SSIZE_MAX. lia.
Qed.

(** Every run of the loop is of this kind: descriptors that are holes or
    are served, then the place where it ends. *)
Lemma read_loop_decomposes w : forall reqs i,
  (forall rq, In rq reqs -> 0 <= size rq) ->
  exists done rest a,
    reqs = done ++ rest /\
    (forall k rq, done !! k = Some rq -> hole rq \/ served w (i + k) rq) /\
    stops_at w (i + length done) rest a.
Proof.
  induction reqs as [| rq reqs IH]; intros i Hsz.
  { exists [], [], 0. repeat split. intros k rq Hk. discriminate Hk. }
  assert (0 <= size rq) as Hrq by (apply Hsz; left; reflexivity).
  assert (forall rq', In rq' reqs -> 0 <= size rq') as Hsz'
    by (intros rq' Hin; apply Hsz; right; exact Hin).
  assert (forall a, stops_at w i (rq :: reqs) a ->
            exists done rest a,
              rq :: reqs = done ++ rest /\
              (forall k rq0, done !! k = Some rq0 ->
                             hole rq0 \/ served w (i + k) rq0) /\
              stops_at w (i + length done) rest a) as Hend.
  { intros a Ha. exists [], (rq :: reqs), a.
    cbn [app length]. rewrite Nat.add_0_r.
    split; [reflexivity |]. split; [| exact Ha].
    intros k rq0 Hk. discriminate Hk. }
  assert ((hole rq \/ served w i rq) ->
            exists done rest a,
              rq :: reqs = done ++ rest /\
              (forall k rq0, done !! k = Some rq0 ->
                             hole rq0 \/ served w (i + k) rq0) /\
              stops_at w (i + length done) rest a) as Hgo.
  { intros Hrq'. destruct (IH (S i) Hsz') as (done & rest & a & -> & Hd & Ha).
    exists (rq :: done), rest, a. cbn [app length].
    rewrite Nat.add_succ_r. split; [reflexivity |]. split; [| exact Ha].
    intros [| k] rq0 Hk.
    - injection Hk as <-. rewrite Nat.add_0_r. exact Hrq'.
    - rewrite Nat.add_succ_r. apply Hd. exact Hk. }
  destruct (Z.eq_dec (size rq) 0) as [Hz | Hnz].
  { apply (Hend 0). cbn [stops_at]. left. split; [left; exact Hz | reflexivity]. }
  destruct (Z.eq_dec (partition_id rq) 0) as [Hp | Hp].
  { apply Hgo. left. split; [lia | exact Hp]. }
  destruct (new_read_packet w i) eqn:Hpk.
  2: { apply (Hend 0). left. split; [| reflexivity]. right. auto. }
  destruct (Z.lt_ge_cases (get_conn w i) 0) as [Hc | Hc].
  { apply (Hend 0). left. split; [| reflexivity]. right. auto. }
  destruct (Z.lt_ge_cases (write_sock w i) 0) as [Hw | Hw].
  { apply (Hend 0). left. split; [| reflexivity]. right. auto. }
  destruct (Z.lt_ge_cases (get_read_reply w i) 0) as [Hr | Hr].
  { apply (Hend 0). left. split; [| reflexivity]. right. auto 6. }
  destruct (Z.eq_dec (get_read_reply w i) (size rq)) as [He | He].
  - apply Hgo. right. unfold served. repeat split; try assumption; lia.
  - apply (Hend (get_read_reply w i)). right. unfold short_reply.
    repeat split; try assumption; lia.
Qed.

(** C2. Every run of the fast path goes through descriptors that are
    holes or are served with their exact length, [done], and then ends:
    at the end of what the query reported (nothing, when the query
    failed or was empty), at a descriptor that is cut short (empty, or
    its packet cannot be built, its connection cannot be had, its write
    or its reply fails), or at a reply [a] of another length than the
    descriptor's. The bytes accounted for are then the lengths of
    [done] and the bytes of that reply: the status of the failed call
    is not among them, and the total is never negative. Whenever this
    total is below [count], [cfs_pread_sock] calls the fallback
    [cfs_pread] once, as its last call, and returns its result and
    nothing else; otherwise it returns the total. (Lengths are not
    negative, being [size_t], and the total is taken to fit the
    [ssize_t] it is kept in.) *)
Theorem cfs_pread_sock_falls_back (w : sdk_t) (count offset : Z) :
  (forall rq, In rq (reported w) -> 0 <= size rq) ->
  (exists done rest a,
     reported w = done ++ rest /\
     (forall k rq, done !! k = Some rq -> hole rq \/ served w k rq) /\
     stops_at w (length done) rest a) /\
  (forall done rest a,
     reported w = done ++ rest ->
     (forall k rq, done !! k = Some rq -> hole rq \/ served w k rq) ->
     stops_at w (length done) rest a ->
     total_size done + a <= SSIZE_MAX ->
     fst (fast_path w count offset) = total_size done + a /\
     0 <= total_size done + a /\
     (total_size done + a < count ->
      cfs_pread_sock w count offset
        = (cfs_pread w,
           snd (fast_path w count offset) ++ [ev_cfs_pread count offset]) /\
      fallback_calls (snd (cfs_pread_sock w count offset)) = 1%nat) /\
     (count <= total_size done + a ->
      cfs_pread_sock w count offset = fast_path w count offset)).
Proof.
  intros Hsz. split.
  - exact (read_loop_decomposes w (reported w) 0%nat Hsz).
  - intros done rest a Hrep Hdone Hstop Hmax.
    pose proof (total_size_holes_served w done 0%nat Hdone) as Hpos.
    assert (0 <= a) as Ha.
    { destruct rest as [| rq rest]; cbn [stops_at] in Hstop; [lia |].
      destruct Hstop as [[_ ->] | (_ & _ & _ & _ & _ & _ & Ha & _)]; lia. }
    assert (fst (fast_path w count offset) = total_size done + a) as Hfast.
    { unfold fast_path. unfold reported in Hrep.
      destruct (cfs_read_requests w) as [req_count req].
      cbn [fst snd] in Hrep. rewrite Hrep.
      destruct (read_loop_prefix w rest done 0%nat 0
                  [ev_read_requests count offset] Hdone ltac:(lia)
                  ltac:(lia)) as [tr' ->].
      rewrite (read_loop_stops_at w _ rest a) by (assumption || lia).
      lia. }
    pose proof (fast_path_no_fallback w count offset) as Hnf.
    destruct (fast_path w count offset) as [read tr] eqn:Hfp.
    cbn [fst snd] in *. subst read.
    split; [reflexivity |]. split; [lia |]. split.
    + intros Hlt.
      rewrite (cfs_pread_sock_below_count _ _ _ _ _ Hfp) by lia.
      split; [reflexivity |]. cbn [snd].
      rewrite fallback_calls_app, Hnf. reflexivity.
    + intros Hge. unfold cfs_pread_sock. rewrite Hfp.
      assert (to_size_t (total_size done + a) = total_size done + a) as ->.
      { unfold to_size_t. apply Z.mod_small. unfold SSIZE_MAX in Hmax. lia. }
      assert ((total_size done + a <? count) = false) as -> by lia.
      reflexivity.
Qed.

(** A request for 8192 bytes in two descriptors of 4096. The first is
    served; for the second either no connection can be had (status -111)
    or the reply brings 100 bytes. In both cases the fallback answers. *)
Lemma cfs_pread_sock_falls_back_witness :
  cfs_pread_sock
    (mk_sdk (2, [mk_req 0 4096 7 1 0 (cstr "10.0.0.1") 17030;
                 mk_req 4096 4096 8 2 0 (cstr "10.0.0.2") 17030])
            (fun _ => true) (fun i => match i with O => 5 | _ => -111 end)
            (fun _ => 0) (fun _ => 4096) 8192)
    8192 0
  = (8192,
     (ev_read_requests 8192 0 :: exchange 0)
     ++ [ev_new_read_packet 1; ev_get_conn 1] ++ [ev_cfs_pread 8192 0]) /\
  cfs_pread_sock
    (mk_sdk (2, [mk_req 0 4096 7 1 0 (cstr "10.0.0.1") 17030;
                 mk_req 4096 4096 8 2 0 (cstr "10.0.0.2") 17030])
            (fun _ => true) (fun _ => 5) (fun _ => 0)
            (fun i => match i with O => 4096 | _ => 100 end) 8192)
    8192 0
  = (8192,
     (ev_read_requests 8192 0 :: exchange 0 ++ exchange 1)
     ++ [ev_cfs_pread 8192 0]).
Proof.
  split.
  - destruct (cfs_pread_sock_falls_back
                (mk_sdk (2, [mk_req 0 4096 7 1 0 (cstr "10.0.0.1") 17030;
                             mk_req 4096 4096 8 2 0 (cstr "10.0.0.2") 17030])
                        (fun _ => true)
                        (fun i => match i with O => 5 | _ => -111 end)
                        (fun _ => 0) (fun _ => 4096) 8192)
                8192 0) as [_ H].
    { intros rq [<- | [<- | []]]; simpl; lia. }
    destruct (H [mk_req 0 4096 7 1 0 (cstr "10.0.0.1") 17030]
                [mk_req 4096 4096 8 2 0 (cstr "10.0.0.2") 17030] 0)
      as (_ & _ & Hlt & _).
    + reflexivity.
    + intros [| k] rq Hk; [| destruct k; discriminate Hk].
      injection Hk as <-. right. unfold served. cbn. lia.
    + left. split; [| reflexivity]. right. cbn. split; [lia |].
      right. left. lia.
    + unfold SSIZE_MAX. cbn. lia.
    + destruct Hlt as [Heq _]; [cbn; lia | exact Heq].
  - destruct (cfs_pread_sock_falls_back
                (mk_sdk (2, [mk_req 0 4096 7 1 0 (cstr "10.0.0.1") 17030;
                             mk_req 4096 4096 8 2 0 (cstr "10.0.0.2") 17030])
                        (fun _ => true) (fun _ => 5) (fun _ => 0)
                        (fun i => match i with O => 4096 | _ => 100 end)
                        8192)
                8192 0) as [_ H].
    { intros rq [<- | [<- | []]]; simpl; lia. }
    destruct (H [mk_req 0 4096 7 1 0 (cstr "10.0.0.1") 17030]
                [mk_req 4096 4096 8 2 0 (cstr "10.0.0.2") 17030] 100)
      as (_ & _ & Hlt & _).
    + reflexivity.
    + intros [| k] rq Hk; [| destruct k; discriminate Hk].
      injection Hk as <-. right. unfold served. cbn. lia.
    + right. unfold short_reply. cbn. lia.
    + unfold SSIZE_MAX. cbn. lia.
    + destruct Hlt as [Heq _]; [cbn; lia | exact Heq].
Defined.

(** The query fails or is empty, or the first descriptor is cut short:
    nothing is accounted for and any request for at least one byte is
    answered by the fallback. *)
Lemma cfs_pread_sock_nothing_read w count offset :
  0 < count ->
  (fst (cfs_read_requests w) <= 0 \/ snd (cfs_read_requests w) = [] \/
   exists rq reqs, snd (cfs_read_requests w) = rq :: reqs /\ cut_short w 0%nat rq) ->
  fst (fast_path w count offset) = 0 /\
  fst (cfs_pread_sock w count offset) = cfs_pread w.
Proof.
  intros Hcount Hq.
  assert (fst (fast_path w count offset) = 0) as Hfast.
  { unfold fast_path. destruct (cfs_read_requests w) as [req_count req].
    cbn [fst snd] in Hq. destruct Hq as [Hq | [-> | (rq & reqs & -> & Hcut)]].
    - replace (Z.to_nat req_count) with 0%nat by lia. reflexivity.
    - rewrite firstn_nil. cbn [firstn]. destruct (Z.to_nat req_count); reflexivity.
    - destruct (Z.to_nat req_count); [reflexivity |].
      cbn [max_count firstn]. apply read_loop_cut_short. exact Hcut. }
  split; [exact Hfast |].
  unfold cfs_pread_sock. destruct (fast_path w count offset) as [read tr].
  cbn [fst] in Hfast. subst read.
  assert ((to_size_t 0 <? count) = true) as ->; [| reflexivity].
  apply Z.ltb_lt. exact Hcount.
Qed.

(** The first descriptor's exchange succeeds but brings fewer bytes than
    the descriptor asks for, itself no more than the request: the fallback
    answers. *)
Lemma cfs_pread_sock_short_reply w count offset rq reqs :
  cfs_read_requests w = (Z.of_nat (length (rq :: reqs)), rq :: reqs) ->
  partition_id rq <> 0 -> new_read_packet w 0%nat = true ->
  0 <= get_conn w 0%nat -> 0 <= write_sock w 0%nat ->
  0 <= get_read_reply w 0%nat < size rq -> size rq <= count ->
  size rq <= SSIZE_MAX ->
  cfs_pread_sock w count offset
    = (cfs_pread w,
       (ev_read_requests count offset :: exchange 0) ++
       [ev_cfs_pread count offset]).
Proof.
  intros Hq Hp Hpk Hconn Hwr Hre Hsz Hmax.
  apply (cfs_pread_sock_below_count _ _ _ (get_read_reply w 0%nat)); [| lia].
  unfold fast_path. rewrite Hq.
  rewrite Nat2Z.id. cbn [length max_count firstn read_loop].
  apply Z.eqb_neq in Hp. rewrite Hp, Hpk.
  assert ((size rq =? 0) = false) as -> by lia.
  assert ((get_conn w 0%nat <? 0) = false) as -> by lia.
  assert ((write_sock w 0%nat <? 0) = false) as -> by lia.
  assert ((get_read_reply w 0%nat <? 0) = false) as -> by lia.
  cbn [negb]. unfold SSIZE_MAX in Hmax.
  assert (to_size_t (get_read_reply w 0%nat) = get_read_reply w 0%nat) as ->.
  { unfold to_size_t. apply Z.mod_small. lia. }
  assert ((get_read_reply w 0%nat =? size rq) = false) as -> by lia.
  cbn [negb]. rewrite to_ssize_t_id; [reflexivity |].
  unfold is_ssize_t, SSIZE_MAX. lia.
Qed.

Lemma exchanges_counts l :
  fallback_calls (concat (map exchange l)) = 0%nat /\
  round_trips (concat (map exchange l)) = length l.
Proof.
  induction l as [| i l [IHf IHr]]; [split; reflexivity |].
  cbn [map concat length].
  rewrite fallback_calls_app, round_trips_app, IHf, IHr. split; reflexivity.
Qed.

Lemma total_size_served w : forall reqs i,
  (forall k rq, reqs !! k = Some rq -> served w (i + k) rq) ->
  0 <= total_size reqs.
Proof.
  induction reqs as [| rq reqs IH]; intros i H; cbn [total_size fold_right];
    [lia |].
  destruct (H 0%nat rq eq_refl) as (Hsz & _).
  specialize (IH (S i)). unfold total_size in IH.
  assert (0 <= fold_right (fun rq acc => size rq + acc) 0 reqs); [| lia].
  apply IH. intros k rq' Hk. replace (S i + k)%nat with (i + S k)%nat by lia.
  apply H. exact Hk.
Qed.

(** When every descriptor is served, the loop goes through all of them
    and adds up their lengths. *)
Lemma read_loop_all_served w : forall reqs i read tr,
  (forall k rq, reqs !! k = Some rq -> served w (i + k) rq) ->
  0 <= read -> read + total_size reqs <= SSIZE_MAX ->
  read_loop w i reqs read tr
    = (read + total_size reqs,
       tr ++ concat (map exchange (seq i (length reqs)))).
Proof.
  induction reqs as [| rq reqs IH]; intros i read tr H Hr Hmax.
  - cbn. rewrite Z.add_0_r, app_nil_r. reflexivity.
  - assert (forall k rq', reqs !! k = Some rq' -> served w (S i + k) rq')
      as H'.
    { intros k rq' Hk. replace (S i + k)%nat with (i + S k)%nat by lia.
      apply H. exact Hk. }
    pose proof (total_size_served w reqs (S i) H') as Hpos.
    destruct (H 0%nat rq eq_refl)
      as (Hsz & Hp & Hpk & Hconn & Hwr & Hre).
    rewrite Nat.add_0_r in *.
    change (total_size (rq :: reqs)) with (size rq + total_size reqs) in *.
    unfold SSIZE_MAX in *.
    cbn [read_loop]. rewrite Hre.
    apply Z.eqb_neq in Hp. rewrite Hp, Hpk.
    assert ((size rq =? 0) = false) as -> by lia.
    assert ((get_conn w i <? 0) = false) as -> by lia.
    assert ((write_sock w i <? 0) = false) as -> by lia.
    assert ((size rq <? 0) = false) as -> by lia.
    assert (to_size_t (size rq) = size rq) as ->.
    { unfold to_size_t. apply Z.mod_small. lia. }
    rewrite Z.eqb_refl. cbn [negb].
    rewrite to_ssize_t_id by (unfold is_ssize_t, SSIZE_MAX; lia).
    rewrite IH by (try assumption; unfold SSIZE_MAX; lia).
    cbn [length seq map concat]. rewrite <- !app_assoc, Z.add_assoc.
    reflexivity.
Qed.

(** C3. A request for [N] bytes (at most [SSIZE_MAX], as the result type
    requires) for which the location query reports at most [max_count]
    descriptors, none of them a hole or empty, whose lengths add up to
    [N], and each of which is served with exactly its length: the call
    returns [N], makes one socket round trip per descriptor and never
    calls the fallback. With one descriptor that is one round trip and no
    fallback call. *)
Theorem cfs_pread_sock_fast_path_only (w : sdk_t) (N offset : Z)
        (reqs : list cfs_read_req_t) :
  cfs_read_requests w = (Z.of_nat (length reqs), reqs) ->
  (length reqs <= max_count)%nat ->
  (forall k rq, reqs !! k = Some rq -> served w k rq) ->
  total_size reqs = N -> N <= SSIZE_MAX ->
  cfs_pread_sock w N offset
    = (N, ev_read_requests N offset
          :: concat (map exchange (seq 0 (length reqs)))) /\
  fallback_calls (snd (cfs_pread_sock w N offset)) = 0%nat /\
  round_trips (snd (cfs_pread_sock w N offset)) = length reqs /\
  (length reqs = 1%nat ->
   snd (cfs_pread_sock w N offset) = ev_read_requests N offset :: exchange 0).
Proof.
  intros Hq Hlen Hserved Hsum Hmax.
  pose proof (total_size_served w reqs 0%nat Hserved) as Hpos.
  assert (cfs_pread_sock w N offset
          = (N, ev_read_requests N offset
                :: concat (map exchange (seq 0 (length reqs))))) as Heq.
  { unfold cfs_pread_sock, fast_path. rewrite Hq, Nat2Z.id.
    rewrite (firstn_all2 (n := max_count)) by exact Hlen.
    rewrite firstn_all.
    rewrite read_loop_all_served by (try assumption; lia).
    rewrite Z.add_0_l, Hsum.
    assert (to_size_t N = N) as ->.
    { unfold to_size_t. apply Z.mod_small. unfold SSIZE_MAX in Hmax. lia. }
    rewrite Z.ltb_irrefl. reflexivity. }
  rewrite Heq. cbn [snd].
  destruct (exchanges_counts (seq 0 (length reqs))) as [Hf Hr].
  split; [reflexivity |]. split; [| split].
  - change (ev_read_requests N offset :: ?l)
      with ([ev_read_requests N offset] ++ l).
    rewrite fallback_calls_app, Hf. reflexivity.
  - change (ev_read_requests N offset :: ?l)
      with ([ev_read_requests N offset] ++ l).
    rewrite round_trips_app, Hr, length_seq. reflexivity.
  - intros ->. reflexivity.
Qed.

(** Offset 0, count 4096, one descriptor covering the whole range. *)
Lemma cfs_pread_sock_fast_path_only_witness :
  cfs_pread_sock
    (mk_sdk (1, [mk_req 0 4096 7 1 0 (cstr "10.0.0.1") 17030])
            (fun _ => true) (fun _ => 5) (fun _ => 0) (fun _ => 4096) (-5))
    4096 0
  = (4096, ev_read_requests 4096 0 :: exchange 0) /\
  fallback_calls
    (snd (cfs_pread_sock
            (mk_sdk (1, [mk_req 0 4096 7 1 0 (cstr "10.0.0.1") 17030])
                    (fun _ => true) (fun _ => 5) (fun _ => 0)
                    (fun _ => 4096) (-5)) 4096 0)) = 0%nat /\
  round_trips
    (snd (cfs_pread_sock
            (mk_sdk (1, [mk_req 0 4096 7 1 0 (cstr "10.0.0.1") 17030])
                    (fun _ => true) (fun _ => 5) (fun _ => 0)
                    (fun _ => 4096) (-5)) 4096 0)) = 1%nat /\
  snd (cfs_pread_sock
         (mk_sdk (1, [mk_req 0 4096 7 1 0 (cstr "10.0.0.1") 17030])
                 (fun _ => true) (fun _ => 5) (fun _ => 0)
                 (fun _ => 4096) (-5)) 4096 0)
  = ev_read_requests 4096 0 :: exchange 0.
Proof.
  destruct (cfs_pread_sock_fast_path_only
              (mk_sdk (1, [mk_req 0 4096 7 1 0 (cstr "10.0.0.1") 17030])
                      (fun _ => true) (fun _ => 5) (fun _ => 0)
                      (fun _ => 4096) (-5))
              4096 0 [mk_req 0 4096 7 1 0 (cstr "10.0.0.1") 17030])
    as (H1 & H2 & H3 & H4).
  - reflexivity.
  - unfold max_count. simpl. lia.
  - intros [| k] rq Hk; [| destruct k; discriminate Hk].
    injection Hk as <-. unfold served. cbn. lia.
  - reflexivity.
  - unfold SSIZE_MAX. lia.
  - split; [exact H1 |]. split; [exact H2 |]. split; [exact H3 |].
    apply H4. reflexivity.
Defined.
End HybridRead.

(* ===================================================================== *)
(** * Further properties *)

(** ** Descriptor registry and error translator *)

Section RegistryMore.
Local Open Scope Z_scope.

(** X1. For a descriptor that is not aliased, [fd_in_cfs] and
    [get_cfs_fd] agree: the descriptor is remote exactly when it resolves
    to something other than [-1]; the handle id obtained has the reserved
    bit clear. *)
Theorem fd_in_cfs_iff_resolves (g : client_info_t) (fd : Z) :
  dup_fds g !! fd = None ->
  (fd_in_cfs g fd = true <-> get_cfs_fd g fd <> -1) /\
  (fd_in_cfs g fd = true -> Z.land (get_cfs_fd g fd) CFS_FD_MASK = 0).
Proof.
  intros Hna. unfold fd_in_cfs, get_cfs_fd. rewrite Hna.
  assert (Z.land (Z.land fd (Z.lnot CFS_FD_MASK)) CFS_FD_MASK = 0) as Hclr.
  { rewrite <- Z.land_assoc, (Z.land_comm (Z.lnot _)), Z.land_lnot_diag.
    apply Z.land_0_r. }
  destruct (Z.eqb_spec (Z.land fd CFS_FD_MASK) 0) as [Hz | Hnz].
  - split; [split; [discriminate | congruence] | discriminate].
  - split; [| intros _; exact Hclr].
    split; [intros _ | reflexivity].
    intros Heq. rewrite Heq in Hclr. vm_compute in Hclr. discriminate.
Qed.

Lemma fd_in_cfs_iff_resolves_witness :
  fd_in_cfs (mk_client_info {[ 5 := 3 ]} ∅ None false [] [])
            (CFS_FD_MASK + 9) = true /\
  get_cfs_fd (mk_client_info {[ 5 := 3 ]} ∅ None false [] [])
             (CFS_FD_MASK + 9) <> -1.
Proof.
  destruct (fd_in_cfs_iff_resolves
              (mk_client_info {[ 5 := 3 ]} ∅ None false [] [])
              (CFS_FD_MASK + 9)) as [[H1 _] _]; [reflexivity |].
  split; [reflexivity | apply H1; reflexivity].
Defined.

(** X2. Setting the reserved bit on a handle id and resolving the result
    gives the handle id back, and the descriptor counts as remote: the
    encoding of direct descriptors is undone by [get_cfs_fd]. *)
Theorem get_cfs_fd_undoes_mask (g : client_info_t) (id : Z) :
  Z.land id CFS_FD_MASK = 0 ->
  dup_fds g !! (Z.lor id CFS_FD_MASK) = None ->
  get_cfs_fd g (Z.lor id CFS_FD_MASK) = id /\
  fd_in_cfs g (Z.lor id CFS_FD_MASK) = true.
Proof.
  intros Hid Hna. unfold get_cfs_fd, fd_in_cfs. rewrite Hna.
  assert (Z.land (Z.lor id CFS_FD_MASK) CFS_FD_MASK = CFS_FD_MASK) as Hset.
  { rewrite Z.land_lor_distr_l, Hid, Z.land_diag. reflexivity. }
  rewrite Hset. change (CFS_FD_MASK =? 0) with false. cbv iota.
  split; [| reflexivity].
  rewrite Z.land_lor_distr_l, Z.land_lnot_diag, Z.lor_0_r.
  apply strip_mask_fixed. exact Hid.
Qed.

Lemma get_cfs_fd_undoes_mask_witness :
  get_cfs_fd (mk_client_info ∅ ∅ None false [] []) (Z.lor 12 CFS_FD_MASK)
  = 12.
Proof.
  apply (get_cfs_fd_undoes_mask (mk_client_info ∅ ∅ None false [] []) 12);
    reflexivity.
Defined.

(** X3. After a successful [dup_fd oldfd newfd], the new descriptor is
    remote and resolves to [oldfd], through which the file of [oldfd] is
    found; every other descriptor is classified and resolved as before,
    and the open-files table is the same, so [newfd] itself has no entry
    of its own unless it had one. *)
Theorem dup_fd_then_resolve (oldfd newfd : Z) (g g' : client_info_t)
        (h h' : file_store) (p : ptr) :
  get_open_file g oldfd = Some p ->
  dup_fd oldfd newfd g h = (newfd, g', h') ->
  fd_in_cfs g' newfd = true /\
  get_cfs_fd g' newfd = oldfd /\
  get_open_file g' (get_cfs_fd g' newfd) = Some p /\
  (forall k, get_open_file g' k = get_open_file g k) /\
  (forall k, k <> newfd ->
     fd_in_cfs g' k = fd_in_cfs g k /\ get_cfs_fd g' k = get_cfs_fd g k).
Proof.
  unfold get_open_file, dup_fd. intros Hp. rewrite Hp.
  intros [= <- <-].
  unfold fd_in_cfs, get_cfs_fd, set_dup_fds. cbn [dup_fds open_files].
  rewrite lookup_insert_eq.
  split; [reflexivity |]. split; [reflexivity |]. split; [exact Hp |].
  split; [reflexivity |].
  intros k Hk. rewrite lookup_insert_ne by congruence. split; reflexivity.
Qed.

Lemma dup_fd_then_resolve_witness :
  exists g' h',
    dup_fd 3 9 (mk_client_info ∅ {[ 3 := 1%positive ]} None false [] [])
           {[ 1%positive := mk_file 3 0 0 1 0 None ]} = (9, g', h') /\
    get_cfs_fd g' 9 = 3 /\ get_open_file g' 9 = None /\
    get_open_file g' (get_cfs_fd g' 9) = Some 1%positive.
Proof.
  exists (mk_client_info {[ 9 := 3 ]} {[ 3 := 1%positive ]} None false [] []),
         (alter incr_dup_ref 1%positive
                {[ 1%positive := mk_file 3 0 0 1 0 None ]}).
  split; [reflexivity |].
  destruct (dup_fd_then_resolve 3 9
              (mk_client_info ∅ {[ 3 := 1%positive ]} None false [] [])
              (mk_client_info {[ 9 := 3 ]} {[ 3 := 1%positive ]}
                              None false [] [])
              {[ 1%positive := mk_file 3 0 0 1 0 None ]}
              (alter incr_dup_ref 1%positive
                     {[ 1%positive := mk_file 3 0 0 1 0 None ]})
              1%positive)
    as (_ & H2 & H3 & H4 & _); [reflexivity | reflexivity |].
  split; [exact H2 |]. split; [rewrite H4; reflexivity | exact H3].
Defined.

(** X4. Registering the same new descriptor twice, first for [fd1] and
    then for [fd2] (two open files at different addresses), leaves the
    alias pointing at [fd2] only, while both files keep the reference
    they were given: the first one is not taken back. *)
Theorem dup_fd_twice_same_newfd (fd1 fd2 newfd : Z) (g : client_info_t)
        (h : file_store) (p1 p2 : ptr) (f1 f2 : file_t) :
  open_files g !! fd1 = Some p1 -> open_files g !! fd2 = Some p2 ->
  p1 <> p2 -> h !! p1 = Some f1 -> h !! p2 = Some f2 ->
  exists g1 h1 g2 h2,
    dup_fd fd1 newfd g h = (newfd, g1, h1) /\
    dup_fd fd2 newfd g1 h1 = (newfd, g2, h2) /\
    dup_fds g2 = <[newfd := fd2]> (dup_fds g) /\
    h2 !! p1 = Some (incr_dup_ref f1) /\
    h2 !! p2 = Some (incr_dup_ref f2).
Proof.
  intros H1 H2 Hne Hf1 Hf2. unfold dup_fd. rewrite H1.
  eexists _, _, _, _. split; [reflexivity |].
  unfold set_dup_fds. cbn [open_files dup_fds]. rewrite H2.
  split; [reflexivity |].
  split; [apply insert_insert_eq |].
  split.
  - rewrite lookup_alter_ne, lookup_alter_eq, Hf1 by congruence. reflexivity.
  - rewrite lookup_alter_eq, lookup_alter_ne, Hf2 by congruence. reflexivity.
Qed.

Lemma dup_fd_twice_same_newfd_witness :
  exists g1 h1 g2 h2,
    dup_fd 3 9 (mk_client_info ∅ {[ 3 := 1%positive; 4 := 2%positive ]}
                               None false [] [])
           {[ 1%positive := mk_file 3 0 0 1 0 None;
              2%positive := mk_file 4 0 0 1 0 None ]} = (9, g1, h1) /\
    dup_fd 4 9 g1 h1 = (9, g2, h2) /\
    get_cfs_fd g2 9 = 4 /\
    h2 !! 1%positive = Some (mk_file 3 0 0 2 0 None).
Proof.
  destruct (dup_fd_twice_same_newfd 3 4 9
              (mk_client_info ∅ {[ 3 := 1%positive; 4 := 2%positive ]}
                              None false [] [])
              {[ 1%positive := mk_file 3 0 0 1 0 None;
                 2%positive := mk_file 4 0 0 1 0 None ]}
              1%positive 2%positive
              (mk_file 3 0 0 1 0 None) (mk_file 4 0 0 1 0 None))
    as (g1 & h1 & g2 & h2 & Hd1 & Hd2 & Ha & Hp1 & _);
    try reflexivity; try discriminate.
  exists g1, h1, g2, h2. split; [exact Hd1 |]. split; [exact Hd2 |].
  split; [| exact Hp1].
  unfold get_cfs_fd. rewrite Ha, lookup_insert_eq. reflexivity.
Defined.

(** X5. On every status that is an [int], the translator for [int]
    results and the one for [ssize_t] results return the same value and
    leave the same errno. *)
Theorem cfs_errno_agree (r e0 : Z) :
  is_int r -> cfs_errno r e0 = cfs_errno_ssize_t r e0.
Proof.
  unfold is_int, INT_MIN, INT_MAX, cfs_errno, cfs_errno_ssize_t. intros Hr.
  destruct (r <? 0); [| reflexivity].
  rewrite to_ssize_t_id; [reflexivity |].
  unfold is_ssize_t, SSIZE_MAX. lia.
Qed.

Lemma cfs_errno_agree_witness :
  cfs_errno (-13) 0 = cfs_errno_ssize_t (-13) 0.
Proof.
  apply cfs_errno_agree. unfold is_int, INT_MIN, INT_MAX. lia.
Defined.
End RegistryMore.

(** ** Path cleaner *)

Section CleanerMore.

(** The loop and its result for a path, with the rooted flag of the path. *)
Lemma get_clean_path_shape (p : cstring) :
  exists res dotdot,
    canon (Ascii.eqb (char_at p 0) "/") res dotdot /\
    get_clean_path true (Some p)
    = Some (match res with [] => ["."%char] | _ => res end).
Proof.
  unfold get_clean_path. cbn [negb].
  destruct (Ascii.eqb (char_at p 0) "/") eqn:Hroot.
  - destruct (clean_loop_total (length p) true (skipn 1 p) ["/"%char] 1)
      as [res Hres].
    { rewrite length_skipn. lia. }
    rewrite Hres.
    destruct (clean_loop_canon _ _ _ _ _ _ (canon_init true) Hres)
      as (dd & Hc & _).
    exists res, dd. split; [exact Hc |]. destruct res; reflexivity.
  - destruct (clean_loop_total (length p) false p [] 0) as [res Hres]; [lia |].
    rewrite Hres.
    destruct (clean_loop_canon _ _ _ _ _ _ (canon_init false) Hres)
      as (dd & Hc & _).
    exists res, dd. split; [exact Hc |]. destruct res; reflexivity.
Qed.

(** X6. Cleaning keeps a path rooted or relative: the result begins with
    the separator exactly when the path does. *)
Theorem get_clean_path_keeps_root (p q : cstring) :
  get_clean_path true (Some p) = Some q ->
  Ascii.eqb (char_at q 0) "/" = Ascii.eqb (char_at p 0) "/".
Proof.
  destruct (get_clean_path_shape p) as (res & dd & Hc & ->).
  intros [= <-].
  destruct (Ascii.eqb (char_at p 0) "/").
  - destruct (canon_rooted_hd _ _ Hc) as [t ->]. reflexivity.
  - destruct res as [| c res]; [reflexivity |].
    destruct (canon_not_rooted_hd _ _ Hc) as [Hnil | Hhd];
      [discriminate | exact Hhd].
Qed.

Lemma get_clean_path_keeps_root_witness :
  Ascii.eqb (char_at (cstr "/a") 0) "/"
  = Ascii.eqb (char_at (cstr "//x/../a/") 0) "/".
Proof.
  apply (get_clean_path_keeps_root (cstr "//x/../a/") (cstr "/a")).
  reflexivity.
Defined.

(** *** Normal forms *)

Lemma join_slash_snoc l e :
  join_slash (l ++ [e])
  = match l with [] => e | _ => join_slash l ++ "/"%char :: e end.
Proof.
  induction l as [| a l IH]; [reflexivity |].
  destruct l as [| b l]; [reflexivity |].
  change (join_slash ((a :: b :: l) ++ [e]))
    with (a ++ "/"%char :: join_slash ((b :: l) ++ [e])).
  rewrite IH. cbn [join_slash]. rewrite <- app_assoc. reflexivity.
Qed.

Lemma join_slash_nil l :
  Forall (fun e : cstring => e <> []) l -> join_slash l = [] -> l = [].
Proof.
  destruct 1 as [| a l Ha _]; [reflexivity |].
  destruct l; simpl; intros H; [congruence |].
  destruct a; [congruence | discriminate].
Qed.

(** "Add slash if needed", then an element, on a normal form. *)
Lemma sep_join rooted l e :
  Forall (fun e : cstring => e <> []) l ->
  sep rooted (init_out rooted ++ join_slash l) ++ e
  = init_out rooted ++ join_slash (l ++ [e]).
Proof.
  intros Hl. rewrite join_slash_snoc. unfold sep.
  destruct l as [| a l].
  - destruct rooted; reflexivity.
  - assert (join_slash (a :: l) <> []) as Hne
      by (intros H; apply join_slash_nil in H; [discriminate | exact Hl]).
    rewrite length_app.
    destruct (join_slash (a :: l)) as [| c t] eqn:Hj; [congruence |].
    destruct rooted; cbn [init_out length andb negb orb Nat.add Nat.eqb];
      rewrite <- !app_assoc; reflexivity.
Qed.

Lemma elems_nonempty k elems :
  Forall elem_ok elems ->
  Forall (fun e : cstring => e <> [])
         (repeat ["."%char; "."%char] k ++ elems).
Proof.
  intros He. apply Forall_app. split.
  - apply List.Forall_forall. intros x Hx. apply repeat_spec in Hx. subst x.
    discriminate.
  - eapply List.Forall_impl; [| exact He]. intros e (Hne & _). exact Hne.
Qed.

Lemma repeat_snoc {A} (x : A) k : repeat x (S k) = repeat x k ++ [x].
Proof. induction k as [| k IH]; [reflexivity |]. simpl in *. congruence. Qed.

Lemma join_slash_app_length l m :
  m <> [] -> Forall (fun e : cstring => e <> []) m ->
  length (join_slash l) < length (join_slash (l ++ m)).
Proof.
  intros Hm Hne.
  assert (0 < length (join_slash m)) as Hpos.
  { destruct (join_slash m) eqn:Hj; [| simpl; lia].
    apply join_slash_nil in Hj; [contradiction | exact Hne]. }
  clear Hm Hne. induction l as [| a l IH]; [exact Hpos |].
  destruct l as [| b l].
  - destruct m; simpl in *; [lia |]. rewrite length_app. simpl. lia.
  - change (join_slash ((a :: b :: l) ++ m))
      with (a ++ "/"%char :: join_slash ((b :: l) ++ m)).
    change (join_slash (a :: b :: l))
      with (a ++ "/"%char :: join_slash (b :: l)).
    rewrite !length_app. cbn [length]. lia.
Qed.

Lemma normal_form_length rooted k elems :
  Forall elem_ok elems ->
  length (normal_form rooted k elems) = length (normal_form rooted k []) ->
  elems = [].
Proof.
  intros He Hlen. destruct elems as [| e elems]; [reflexivity |]. exfalso.
  unfold normal_form in Hlen. rewrite app_nil_r, !length_app in Hlen.
  pose proof (join_slash_app_length (repeat ["."%char; "."%char] k)
                (e :: elems) ltac:(discriminate)) as Hlt.
  assert (Forall (fun e : cstring => e <> []) (e :: elems)) as Hne
    by (eapply List.Forall_impl; [| exact He]; intros x (Hx & _); exact Hx).
  specialize (Hlt Hne). lia.
Qed.

(** The canonical shapes are the normal forms. *)
Lemma canon_normal_form rooted out dotdot :
  canon rooted out dotdot ->
  exists k elems,
    out = normal_form rooted k elems /\ Forall elem_ok elems /\
    (rooted = true -> k = 0) /\
    dotdot = length (normal_form rooted k []).
Proof.
  induction 1 as [| out dotdot Hr _ (k & elems & -> & He & Hk & ->) Hlen
                  | out dotdot e _ (k & elems & -> & He & Hk & ->) Hok].
  - exists 0, []. unfold normal_form. rewrite app_nil_r.
    repeat split; [constructor | destruct rooted; reflexivity].
  - apply normal_form_length in Hlen; [| exact He]. subst elems.
    exists (S k), []. unfold normal_form in *. rewrite !app_nil_r.
    rewrite sep_join, <- repeat_snoc
      by (rewrite <- (app_nil_r (repeat _ _)); apply elems_nonempty;
          constructor).
    repeat split; [constructor | congruence].
  - exists k, (elems ++ [e]). unfold normal_form in *.
    rewrite sep_join, <- app_assoc by (apply elems_nonempty; exact He).
    repeat split; [| exact Hk].
    apply Forall_app. split; [exact He | constructor; [exact Hok | constructor]].
Qed.

Lemma normal_form_canon rooted k elems :
  (rooted = true -> k = 0) -> Forall elem_ok elems ->
  canon rooted (normal_form rooted k elems)
        (length (normal_form rooted k [])).
Proof.
  intros Hk He.
  assert (canon rooted (normal_form rooted k [])
                (length (normal_form rooted k []))) as Hdots.
  { clear He elems. induction k as [| k IH].
    - unfold normal_form. simpl. rewrite app_nil_r.
      replace (length (init_out rooted)) with (init_dotdot rooted)
        by (destruct rooted; reflexivity).
      apply canon_init.
    - destruct rooted; [specialize (Hk eq_refl); discriminate |].
      specialize (IH ltac:(discriminate)).
      unfold normal_form in *. rewrite app_nil_r in *.
      rewrite repeat_snoc, <- sep_join.
      + exact (canon_dots false _ _ eq_refl IH eq_refl).
      + rewrite <- (app_nil_r (repeat _ _)). apply elems_nonempty.
        constructor. }
  induction elems as [| e elems IH] using rev_ind; [exact Hdots |].
  apply Forall_app in He as [He Hok]. inversion Hok; subst.
  unfold normal_form in *. rewrite app_assoc, <- sep_join
    by (apply elems_nonempty; exact He).
  apply canon_elem; [apply IH; exact He | assumption].
Qed.

(** X7. The result of the cleaner is ["."] or a normal form: a leading
    separator if the path has one, then elements joined by single
    separators, none of them empty or [.], with [..] elements only in
    front and only when the path is relative. *)
Theorem get_clean_path_normal_form (p : cstring) :
  exists q,
    get_clean_path true (Some p) = Some q /\
    (q = ["."%char] \/
     exists k elems,
       q = normal_form (Ascii.eqb (char_at p 0) "/") k elems /\
       Forall elem_ok elems /\
       (Ascii.eqb (char_at p 0) "/" = true -> k = 0)).
Proof.
  destruct (get_clean_path_shape p) as (res & dd & Hc & Hq).
  eexists. split; [exact Hq |].
  destruct res as [| c res]; [left; reflexivity | right].
  destruct (canon_normal_form _ _ _ Hc) as (k & elems & Hnf & He & Hk & _).
  exists k, elems. auto.
Qed.

(** X8. Every normal form is left as it is by the cleaner: with X7, the
    results of the cleaner other than ["."] are exactly the paths it does
    not change. *)
Theorem get_clean_path_fixes_normal_forms (rooted : bool) (k : nat)
        (elems : list cstring) :
  (rooted = true -> k = 0) -> Forall elem_ok elems ->
  normal_form rooted k elems <> [] ->
  get_clean_path true (Some (normal_form rooted k elems))
  = Some (normal_form rooted k elems).
Proof.
  intros Hk He Hne.
  pose proof (normal_form_canon rooted k elems Hk He) as Hc.
  apply (get_clean_path_fixed rooted _ _ Hc Hne).
  destruct rooted.
  - reflexivity.
  - destruct (canon_not_rooted_hd _ _ Hc) as [Hnil | Hhd];
      [contradiction | exact Hhd].
Qed.

Lemma get_clean_path_fixes_normal_forms_witness :
  get_clean_path true (Some (cstr "../../a/b")) = Some (cstr "../../a/b") /\
  get_clean_path true (Some (cstr "/a/b")) = Some (cstr "/a/b").
Proof.
  split.
  - apply (get_clean_path_fixes_normal_forms false 2 [cstr "a"; cstr "b"]).
    + discriminate.
    + repeat constructor; discriminate.
    + discriminate.
  - apply (get_clean_path_fixes_normal_forms true 0 [cstr "a"; cstr "b"]).
    + reflexivity.
    + repeat constructor; discriminate.
    + discriminate.
Defined.
(** *** Trailing separators *)

Lemma at_elem_end_snoc rest :
  at_elem_end (rest ++ ["/"%char]) = at_elem_end rest.
Proof. destruct rest; reflexivity. Qed.

Lemma copy_elem_snoc rest out :
  copy_elem (rest ++ ["/"%char]) out
  = (fst (copy_elem rest out) ++ ["/"%char], snd (copy_elem rest out)).
Proof.
  revert out. induction rest as [| c rest IH]; intros out; [reflexivity |].
  cbn [app copy_elem]. destruct (Ascii.eqb c "/"); [reflexivity | apply IH].
Qed.

(** One more pass of the loop reads a separator added to the path. *)
Lemma clean_loop_snoc fuel : forall rooted rest out dotdot res,
  clean_loop fuel rooted rest out dotdot = Some res ->
  clean_loop (S fuel) rooted (rest ++ ["/"%char]) out dotdot = Some res.
Proof.
  induction fuel as [| fuel IH]; intros rooted rest out dotdot res H;
    destruct rest as [| c rest1]; cbn [clean_loop] in H;
    try (injection H as <-; reflexivity); try discriminate.
  change ((c :: rest1) ++ ["/"%char]) with (c :: (rest1 ++ ["/"%char])).
  remember (S fuel) as fuel1. cbn [clean_loop]. subst fuel1.
  rewrite at_elem_end_snoc.
  destruct (Ascii.eqb c "/") eqn:Hslash; [apply IH; exact H |].
  destruct (Ascii.eqb c "." && at_elem_end rest1) eqn:Hdot;
    [apply IH; exact H |].
  destruct rest1 as [| d rest2].
  - (* the last element, of one character *)
    cbn [app hd tl at_elem_end andb] in *.
    change (Ascii.eqb NUL ".") with false in H.
    change (Ascii.eqb "/" ".") with false.
    rewrite andb_false_r in *. cbn [andb] in *.
    rewrite (copy_elem_snoc [c]). cbn [fst snd].
    destruct (copy_elem [c] _) as [rest' out2]. cbn [fst snd].
    apply IH. exact H.
  - cbn [app hd tl] in *. rewrite at_elem_end_snoc.
    destruct (Ascii.eqb c "." && Ascii.eqb d "." && at_elem_end rest2).
    + destruct (dotdot <? length out); [apply IH; exact H |].
      destruct (negb rooted); apply IH; exact H.
    + change (c :: d :: rest2 ++ ["/"%char])
        with ((c :: d :: rest2) ++ ["/"%char]).
      rewrite copy_elem_snoc.
      destruct (copy_elem (c :: d :: rest2) _) as [rest' out2].
      cbn [fst snd]. apply IH. exact H.
Qed.

(** X9. A separator added at the end of a non-empty path does not change
    what the cleaner returns. *)
Theorem get_clean_path_trailing_slash (p : cstring) :
  p <> [] ->
  get_clean_path true (Some (p ++ ["/"%char])) = get_clean_path true (Some p).
Proof.
  intros Hne. destruct p as [| c p]; [congruence |].
  unfold get_clean_path. cbn [negb].
  change (char_at ((c :: p) ++ ["/"%char]) 0) with c.
  change (char_at (c :: p) 0) with c.
  rewrite length_app. cbn [length]. rewrite Nat.add_1_r.
  destruct (Ascii.eqb c "/").
  - change (skipn 1 ((c :: p) ++ ["/"%char])) with (p ++ ["/"%char]).
    change (skipn 1 (c :: p)) with p.
    destruct (clean_loop_total (S (length p)) true p ["/"%char] 1)
      as [res Hres]; [lia |].
    rewrite Hres, (clean_loop_snoc _ _ _ _ _ _ Hres). reflexivity.
  - destruct (clean_loop_total (S (length p)) false (c :: p) [] 0)
      as [res Hres]; [simpl; lia |].
    rewrite Hres, (clean_loop_snoc _ _ _ _ _ _ Hres). reflexivity.
Qed.

Lemma get_clean_path_trailing_slash_witness :
  get_clean_path true (Some (cstr "a/../../b" ++ ["/"%char]))
  = get_clean_path true (Some (cstr "a/../../b")).
Proof.
  apply (get_clean_path_trailing_slash (cstr "a/../../b")). discriminate.
Defined.

(** *** The buffer *)

(** X10. The buffer of [n + 1] bytes holds the result and its terminator
    exactly when the path is not empty: the result is then no longer than
    the path, while the empty path gives ["."], one byte more than was
    allocated. *)
Theorem get_clean_path_fits_buffer (p q : cstring) :
  get_clean_path true (Some p) = Some q ->
  (length q + 1 <= length p + 1 <-> p <> []).
Proof.
  intros Hq. split.
  - intros Hle ->. cbn in Hq. injection Hq as <-. simpl in Hle. lia.
  - intros Hne. apply get_clean_path_length in Hq.
    destruct p; [congruence |]. simpl in *. lia.
Qed.

Lemma get_clean_path_fits_buffer_witness :
  (length (cstr "../b") + 1 <= length (cstr "a/../../b") + 1
   <-> cstr "a/../../b" <> []) /\
  (length (cstr ".") + 1 <= length (cstr "") + 1 <-> cstr "" <> []).
Proof.
  split.
  - apply (get_clean_path_fits_buffer (cstr "a/../../b") (cstr "../b")).
    reflexivity.
  - apply (get_clean_path_fits_buffer (cstr "") (cstr ".")). reflexivity.
Defined.

(** *** Joining and cleaning *)

Lemma canon_not_dot rooted out dotdot :
  canon rooted out dotdot -> out <> ["."%char].
Proof.
  destruct 1 as [| out dotdot _ _ _ | out dotdot e _ (Hne & _ & Hdot & _)].
  - destruct rooted; discriminate.
  - intros H. apply (f_equal (@length ascii)) in H.
    rewrite length_app in H. simpl in H. lia.
  - intros H. destruct (sep rooted out) as [| c t] eqn:Hs.
    + simpl in H. contradiction.
    + apply (f_equal (@length ascii)) in H.
      rewrite length_app in H. destruct e; [congruence |]. simpl in H. lia.
Qed.

(** X11. Joining and cleaning commute behind a clean rooted directory:
    for a relative path that does not climb out of itself, cleaning
    [cat_path base p] gives [base] when [p] cleans to ["."], and
    otherwise [cat_path] of [base] and the cleaned [p]. *)
Theorem get_clean_path_cat_path (base p q : cstring) :
  get_clean_path true (Some base) = Some base ->
  Ascii.eqb (char_at base 0) "/" = true -> 1 < length base ->
  Ascii.eqb (char_at p 0) "/" = false ->
  get_clean_path true (Some p) = Some q ->
  starts_dotdot q = false ->
  get_clean_path true (cat_path true (Some base) (Some p))
  = if cstring_eqb q ["."%char] then Some base
    else cat_path true (Some base) (Some q).
Proof.
  intros Hbase Hroot Hlen Hrel Hq Hdd.
  destruct (get_clean_path_shape p) as (res & dd & Hc & Hq').
  rewrite Hq in Hq'. injection Hq' as ->. rewrite Hrel in Hc.
  destruct res as [| c res].
  - (* the relative path cleans to "." *)
    change (cstring_eqb ["."%char] ["."%char]) with true. cbv iota.
    assert (canon true base 1) as Hb.
    { destruct (get_clean_path_shape base) as (b & dd' & Hcb & Hb).
      rewrite Hbase, Hroot in *. injection Hb as Hb.
      destruct b; [subst base; discriminate Hroot |]. subst base.
      rewrite (canon_rooted_dotdot _ _ Hcb) in Hcb. exact Hcb. }
    unfold get_clean_path in Hq. cbn [negb] in Hq. rewrite Hrel in Hq.
    destruct (clean_loop (length p) false p [] 0) as [res |] eqn:Hres;
      [| discriminate].
    assert (res = []) as ->.
    { destruct res as [| c res]; [reflexivity |]. cbn in Hq.
      injection Hq as -> ->.
      destruct (clean_loop_canon _ _ _ _ _ _ (canon_init false) Hres)
        as (d & Hd & _).
      apply canon_not_dot in Hd. congruence. }
    pose proof (clean_loop_glue base Hb _ _ _ _ (canon_init false) Hres
                                eq_refl) as Hrun.
    destruct (canon_rooted_hd _ _ Hb) as [t ->].
    unfold cat_path, get_clean_path. cbn [negb app char_at nth].
    change (Ascii.eqb "/" "/") with true. cbv iota. cbn [skipn].
    rewrite (cleans_run true (t ++ "/"%char :: p) ["/"%char] 1
                        ("/"%char :: t)); [reflexivity | | simpl; lia].
    apply (canon_replay true _ _ Hb ("/"%char :: p));
      [right; reflexivity |].
    apply cleans_slash. exists (length p). exact Hrun.
  - assert (cstring_eqb (c :: res) ["."%char] = false) as ->.
    { apply canon_not_dot in Hc. unfold cstring_eqb.
      destruct (List.list_eq_dec _ _ _); [contradiction | reflexivity]. }
    unfold cat_path. cbn [negb].
    apply get_clean_path_after_prefix; try assumption.
    apply canon_not_dot in Hc. exact Hc.
Qed.

Lemma get_clean_path_cat_path_witness :
  get_clean_path true (cat_path true (Some (cstr "/mnt/cfs"))
                                (Some (cstr "a//x/../b/")))
  = cat_path true (Some (cstr "/mnt/cfs")) (Some (cstr "a/b")) /\
  get_clean_path true (cat_path true (Some (cstr "/mnt/cfs"))
                                (Some (cstr "a/..")))
  = Some (cstr "/mnt/cfs").
Proof.
  split.
  - apply (get_clean_path_cat_path (cstr "/mnt/cfs") (cstr "a//x/../b/")
                                   (cstr "a/b")); reflexivity || (simpl; lia).
  - apply (get_clean_path_cat_path (cstr "/mnt/cfs") (cstr "a/..")
                                   (cstr ".")); reflexivity || (simpl; lia).
Defined.
End CleanerMore.

(** ** Path classifier *)

Section ClassifierMore.

(** A failed allocation can only turn an answer into [NULL]. *)
Lemma get_cfs_path_alloc g a p :
  get_cfs_path g a p = None \/ get_cfs_path g a p = get_cfs_path g all_ok p.
Proof.
  destruct p as [p |]; [| left; reflexivity].
  destruct a as [c k s r]. unfold get_cfs_path, all_ok.
  cbn [clean_ok cat_ok strdup_ok result_ok].
  destruct (negb _ && negb _); [left; reflexivity |].
  destruct c; [| left; reflexivity].
  destruct (get_clean_path true (Some p)) as [q |]; [| left; reflexivity].
  destruct (negb _ && in_cfs g).
  - unfold cat_path. destruct (cwd g); [| left; reflexivity].
    destruct k; [right | left]; reflexivity.
  - destruct s; [| left; reflexivity]. cbn [negb].
    match goal with |- context [if negb ?b then None else _] =>
      destruct b end; [| left; reflexivity].
    destruct r; [right | left]; reflexivity.
Qed.

(** A cleaned path and its flag, for the classifier. *)
Lemma get_clean_path_again p q :
  get_clean_path true (Some p) = Some q ->
  get_clean_path true (Some q) = Some q /\
  Ascii.eqb (char_at q 0) "/" = Ascii.eqb (char_at p 0) "/".
Proof.
  destruct (get_clean_path_shape p) as (res & dd & Hc & ->).
  intros [= <-].
  destruct res as [| c res].
  - split; [reflexivity |].
    destruct (Ascii.eqb (char_at p 0) "/"); [| reflexivity].
    destruct (canon_rooted_hd _ _ Hc) as [t Ht]. discriminate Ht.
  - assert (Ascii.eqb (char_at (c :: res) 0) "/"
            = Ascii.eqb (char_at p 0) "/") as Hhd.
    { destruct (Ascii.eqb (char_at p 0) "/").
      - destruct (canon_rooted_hd _ _ Hc) as [t [= -> ->]]. reflexivity.
      - destruct (canon_not_rooted_hd _ _ Hc) as [Hnil | Hhd];
          [discriminate | exact Hhd]. }
    split; [| exact Hhd].
    apply (get_clean_path_fixed _ _ _ Hc); [discriminate | exact Hhd].
Qed.

(** X12. The classifier sees a path only through its cleaned form: a path
    and the path the cleaner makes of it get the same answer, whatever
    the mount scope and the allocations. *)
Theorem get_cfs_path_of_clean (g : client_info_t) (a : alloc_t)
        (p q : cstring) :
  get_clean_path true (Some p) = Some q ->
  get_cfs_path g a (Some p) = get_cfs_path g a (Some q).
Proof.
  intros Hq. destruct (get_clean_path_again p q Hq) as [Hqq Hroot].
  unfold get_cfs_path. rewrite Hroot.
  destruct (clean_ok a); [| unfold get_clean_path; reflexivity].
  rewrite Hq, Hqq. reflexivity.
Qed.

Lemma get_cfs_path_of_clean_witness :
  get_cfs_path (mk_client_info ∅ ∅ None false (cstr "/mnt/cfs") [])
               all_ok (Some (cstr "/mnt//x/../cfs/./a/"))
  = get_cfs_path (mk_client_info ∅ ∅ None false (cstr "/mnt/cfs") [])
                 all_ok (Some (cstr "/mnt/cfs/a")).
Proof.
  apply (get_cfs_path_of_clean
           (mk_client_info ∅ ∅ None false (cstr "/mnt/cfs") [])
           all_ok (cstr "/mnt//x/../cfs/./a/") (cstr "/mnt/cfs/a")).
  reflexivity.
Defined.

(** X13. What the classifier returns for an absolute path is what follows
    the mount point in the cleaned path, or ["/"] when nothing follows:
    putting the mount point back in front of a remainder other than
    ["/"] alone gives the cleaned path again. *)
Theorem get_cfs_path_remainder (g : client_info_t) (a : alloc_t)
        (p r : cstring) :
  Ascii.eqb (char_at p 0) "/" = true ->
  get_cfs_path g a (Some p) = Some r ->
  exists q,
    get_clean_path true (Some p) = Some q /\
    (q = mount_point g /\ r = ["/"%char] \/
     q = mount_point g ++ r /\ r <> []).
Proof.
  intros Habs Hr.
  destruct (get_clean_path_shape p) as (res & dd & _ & Hq).
  eexists. split; [exact Hq |].
  destruct (get_cfs_path_alloc g a (Some p)) as [Hn | He]; [congruence |].
  rewrite He, (get_cfs_path_absolute g p _ Habs Hq) in Hr.
  destruct (strip_prefix (mount_point g) _) as [t |] eqn:Hs; [| discriminate].
  apply strip_prefix_app in Hs.
  match type of Hr with (if ?b then _ else _) = _ =>
    destruct b end; [| discriminate].
  injection Hr as <-. rewrite Hs.
  destruct t as [| c t]; [left | right].
  - rewrite app_nil_r. split; reflexivity.
  - split; [reflexivity | discriminate].
Qed.

Lemma get_cfs_path_remainder_witness :
  exists q,
    get_clean_path true (Some (cstr "/mnt/cfs/x/../a")) = Some q /\
    (q = cstr "/mnt/cfs" /\ cstr "/a" = ["/"%char] \/
     q = cstr "/mnt/cfs" ++ cstr "/a" /\ cstr "/a" <> []).
Proof.
  apply (get_cfs_path_remainder
           (mk_client_info ∅ ∅ None false (cstr "/mnt/cfs") (cstr "tmp"))
           all_ok (cstr "/mnt/cfs/x/../a") (cstr "/a"));
    reflexivity.
Defined.

Lemma strncmp_eq_app tok rest :
  strncmp_eq (tok ++ rest) tok (length tok) = true.
Proof.
  induction tok as [| c tok IH]; [reflexivity |].
  cbn [app length strncmp_eq]. rewrite Ascii.eqb_refl. exact IH.
Qed.

(** X14. A path whose first element under the mount point is an entry of
    the ignore list is not in CFS, whatever follows that element. *)
Theorem get_cfs_path_ignored (g : client_info_t) (a : alloc_t)
        (p tok rest : cstring) :
  Ascii.eqb (char_at p 0) "/" = true ->
  get_clean_path true (Some p)
  = Some (mount_point g ++ "/"%char :: tok ++ rest) ->
  In tok (strtok_all "," (ignore_path g)) ->
  at_elem_end rest = true ->
  get_cfs_path g a (Some p) = None.
Proof.
  intros Habs Hq Hin Hend.
  destruct (get_cfs_path_alloc g a (Some p)) as [Hn | ->]; [exact Hn |].
  rewrite (get_cfs_path_absolute g p _ Habs Hq), strip_prefix_app_l.
  assert (strtok_all "," (ignore_path g) <> []) as Hne
    by (intros H; rewrite H in Hin; destruct Hin).
  rewrite (strtok_all_nonempty _ _ Hne), (ignore_loop_separator _ _ _ Hne).
  assert (existsb (token_matches (tok ++ rest))
                  (strtok_all "," (ignore_path g)) = true) as ->;
    [| reflexivity].
  apply existsb_exists. exists tok. split; [exact Hin |].
  unfold token_matches. rewrite strncmp_eq_app.
  replace (char_at (tok ++ rest) (length tok)) with (hd NUL rest).
  - destruct rest as [| c rest]; [reflexivity |].
    cbn [hd at_elem_end] in *. rewrite Hend. apply orb_true_r.
  - rewrite <- (Nat.add_0_r (length tok)), char_at_app_r.
    destruct rest; reflexivity.
Qed.

Lemma get_cfs_path_ignored_witness :
  get_cfs_path (mk_client_info ∅ ∅ None false (cstr "/mnt/cfs")
                               (cstr "tmp,,log"))
               all_ok (Some (cstr "/mnt/cfs/./log//x")) = None.
Proof.
  apply (get_cfs_path_ignored
           (mk_client_info ∅ ∅ None false (cstr "/mnt/cfs") (cstr "tmp,,log"))
           all_ok (cstr "/mnt/cfs/./log//x") (cstr "log") (cstr "/x")).
  - reflexivity.
  - reflexivity.
  - simpl. right. left. reflexivity.
  - reflexivity.
Defined.

(** X15. An ignore list that is not empty but holds no entry, commas
    only, leaves no absolute path in CFS: not even the mount point. *)
Theorem get_cfs_path_no_entries (g : client_info_t) (a : alloc_t)
        (p : cstring) :
  Ascii.eqb (char_at p 0) "/" = true ->
  ignore_path g <> [] -> strtok_all "," (ignore_path g) = [] ->
  get_cfs_path g a (Some p) = None.
Proof.
  intros Habs Hne Htok.
  destruct (get_cfs_path_alloc g a (Some p)) as [Hn | ->]; [exact Hn |].
  destruct (get_clean_path_shape p) as (res & dd & _ & Hq).
  rewrite (get_cfs_path_absolute g p _ Habs Hq), Htok.
  destruct (strip_prefix _ _); [| reflexivity].
  destruct (ignore_path g); [congruence | reflexivity].
Qed.

Lemma get_cfs_path_no_entries_witness :
  get_cfs_path (mk_client_info ∅ ∅ None false (cstr "/mnt/cfs") (cstr ",,"))
               all_ok (Some (cstr "/mnt/cfs")) = None.
Proof.
  apply (get_cfs_path_no_entries
           (mk_client_info ∅ ∅ None false (cstr "/mnt/cfs") (cstr ",,"))
           all_ok (cstr "/mnt/cfs")).
  - reflexivity.
  - discriminate.
  - reflexivity.
Defined.
(** X16. With an empty ignore list, an absolute path is in CFS exactly
    when its cleaned form is the mount point or continues the mount point
    after a separator. *)
Theorem get_cfs_path_empty_ignore_list (g : client_info_t) (p q : cstring) :
  Ascii.eqb (char_at p 0) "/" = true ->
  get_clean_path true (Some p) = Some q -> no_nul q ->
  ignore_path g = [] ->
  (get_cfs_path g all_ok (Some p) <> None <->
   q = mount_point g \/ exists t, q = mount_point g ++ "/"%char :: t).
Proof.
  intros Habs Hq Hnul Hign.
  rewrite (get_cfs_path_absolute g p q Habs Hq), Hign.
  cbn [length Nat.ltb Nat.leb].
  destruct (strip_prefix (mount_point g) q) as [t |] eqn:Hs.
  - apply strip_prefix_app in Hs. subst q.
    apply Forall_app in Hnul as [_ Hnul].
    destruct t as [| c t].
    + split; [intros _; left; apply app_nil_r | discriminate].
    + inversion Hnul; subst. cbn [hd].
      destruct (Ascii.eqb_spec c NUL); [contradiction |]. cbn [orb].
      destruct (Ascii.eqb_spec c "/") as [-> | Hc].
      * split; [intros _; right; exists t; reflexivity | discriminate].
      * split; [congruence |].
        intros [H | [t' H]].
        -- rewrite <- (app_nil_r (mount_point g)) in H at 2.
           apply app_inv_head in H. discriminate.
        -- apply app_inv_head in H. congruence.
  - split; [congruence |].
    intros [H | [t' H]]; subst q.
    + rewrite <- (app_nil_r (mount_point g)) in Hs at 2.
      rewrite strip_prefix_app_l in Hs. discriminate.
    + rewrite strip_prefix_app_l in Hs. discriminate.
Qed.

Lemma get_cfs_path_empty_ignore_list_witness :
  get_cfs_path (mk_client_info ∅ ∅ None false (cstr "/mnt/cfs") [])
               all_ok (Some (cstr "/mnt/cfs/a/./b")) <> None.
Proof.
  apply (get_cfs_path_empty_ignore_list
           (mk_client_info ∅ ∅ None false (cstr "/mnt/cfs") [])
           (cstr "/mnt/cfs/a/./b") (cstr "/mnt/cfs/a/b")).
  - reflexivity.
  - reflexivity.
  - repeat constructor; discriminate.
  - reflexivity.
  - right. exists (cstr "a/b"). reflexivity.
Defined.
End ClassifierMore.

(** ** Hybrid read *)

Section HybridMore.
Local Open Scope Z_scope.

Lemma read_loop_balance w : forall reqs i read tr,
  (length (List.filter is_release (snd (read_loop w i reqs read tr)))
   + length (List.filter (is_acquire w) tr)
   = length (List.filter (is_acquire w) (snd (read_loop w i reqs read tr)))
     + length (List.filter is_release tr))%nat.
Proof.
  induction reqs as [| rq reqs IH]; intros i read tr; cbn [read_loop];
    [cbn [snd]; lia |].
  destruct (size rq =? 0); [cbn [snd]; lia |].
  destruct (partition_id rq =? 0).
  { specialize (IH (S i) (to_ssize_t (read + size rq))
                   (tr ++ [ev_memset read (size rq)])).
    rewrite !List.filter_app, !length_app in IH. cbn in IH. lia. }
  destruct (negb (new_read_packet w i)).
  { cbn [snd]. rewrite !List.filter_app, !length_app. cbn. lia. }
  destruct (Z.ltb_spec (get_conn w i) 0) as [Hneg | Hpos].
  { cbn [snd]. rewrite !List.filter_app, !length_app.
    cbn [List.filter is_release is_acquire length].
    assert ((0 <=? get_conn w i) = false) as -> by lia. cbn. lia. }
  assert ((0 <=? get_conn w i) = true) as Hacq by lia.
  destruct (write_sock w i <? 0).
  { cbn [snd]. rewrite !List.filter_app, !length_app.
    cbn [List.filter is_release is_acquire length]. rewrite Hacq. cbn. lia. }
  destruct (get_read_reply w i <? 0).
  { cbn [snd]. rewrite !List.filter_app, !length_app.
    cbn [List.filter is_release is_acquire length]. rewrite Hacq. cbn. lia. }
  destruct (negb _).
  - cbn [snd]. rewrite !List.filter_app, !length_app.
    cbn [exchange List.filter is_release is_acquire length].
    rewrite Hacq. cbn. lia.
  - specialize (IH (S i) (to_ssize_t (read + get_read_reply w i))
                   (tr ++ exchange i)).
    rewrite !List.filter_app, !length_app in IH.
    cbn [exchange List.filter is_release is_acquire length] in IH.
    rewrite Hacq in IH. cbn [length] in IH. lia.
Qed.

(** X17. No socket is kept: in every call in which the query stores no
    more than the [max_count] descriptors it was given room for, whatever
    the collaborators answer, each socket that [get_conn] hands out is
    given back to the pool or closed; the sockets that leave the function
    are as many as the ones obtained. *)
Theorem cfs_pread_sock_releases_sockets (w : sdk_t) (count offset : Z) :
  fst (cfs_read_requests w) <= Z.of_nat max_count ->
  length (List.filter is_release (snd (cfs_pread_sock w count offset)))
  = length (List.filter (is_acquire w) (snd (cfs_pread_sock w count offset))).
Proof.
  intros _. unfold cfs_pread_sock.
  destruct (fast_path w count offset) as [read tr] eqn:Hfp.
  assert (length (List.filter is_release tr)
          = length (List.filter (is_acquire w) tr)) as Htr.
  { unfold fast_path in Hfp.
    destruct (cfs_read_requests w) as [req_count req].
    pose proof (read_loop_balance w
                  (firstn (Z.to_nat req_count) (firstn max_count req))
                  0%nat 0 [ev_read_requests count offset]) as H.
    rewrite Hfp in H. cbn in H. lia. }
  destruct (to_size_t read <? count); cbn [snd]; [| exact Htr].
  rewrite !List.filter_app, !length_app. cbn. lia.
Qed.

(** Three descriptors: the first is served, the write to the second
    socket fails, the third is not reached. *)
Lemma cfs_pread_sock_releases_sockets_witness :
  List.filter is_release
    (snd (cfs_pread_sock
            (mk_sdk (3, [mk_req 0 4096 7 1 0 (cstr "10.0.0.1") 17030;
                         mk_req 4096 4096 8 2 0 (cstr "10.0.0.2") 17030;
                         mk_req 8192 4096 9 3 0 (cstr "10.0.0.3") 17030])
                    (fun _ => true) (fun _ => 5)
                    (fun i => match i with O => 0 | _ => -1 end)
                    (fun _ => 4096) 12288) 12288 0))
  = [ev_put_conn 0; ev_close 1] /\
  length [ev_put_conn 0; ev_close 1]
  = length
      (List.filter
         (is_acquire
            (mk_sdk (3, [mk_req 0 4096 7 1 0 (cstr "10.0.0.1") 17030;
                         mk_req 4096 4096 8 2 0 (cstr "10.0.0.2") 17030;
                         mk_req 8192 4096 9 3 0 (cstr "10.0.0.3") 17030])
                    (fun _ => true) (fun _ => 5)
                    (fun i => match i with O => 0 | _ => -1 end)
                    (fun _ => 4096) 12288))
         (snd (cfs_pread_sock
                 (mk_sdk (3, [mk_req 0 4096 7 1 0 (cstr "10.0.0.1") 17030;
                              mk_req 4096 4096 8 2 0 (cstr "10.0.0.2") 17030;
                              mk_req 8192 4096 9 3 0 (cstr "10.0.0.3") 17030])
                         (fun _ => true) (fun _ => 5)
                         (fun i => match i with O => 0 | _ => -1 end)
                         (fun _ => 4096) 12288) 12288 0))).
Proof.
  split; [reflexivity |].
  apply (cfs_pread_sock_releases_sockets
           (mk_sdk (3, [mk_req 0 4096 7 1 0 (cstr "10.0.0.1") 17030;
                        mk_req 4096 4096 8 2 0 (cstr "10.0.0.2") 17030;
                        mk_req 8192 4096 9 3 0 (cstr "10.0.0.3") 17030])
                   (fun _ => true) (fun _ => 5)
                   (fun i => match i with O => 0 | _ => -1 end)
                   (fun _ => 4096) 12288) 12288 0).
  unfold max_count. simpl. lia.
Defined.

Lemma read_loop_round_trips w : forall reqs i read tr,
  (round_trips (snd (read_loop w i reqs read tr))
   <= round_trips tr + length reqs)%nat.
Proof.
  induction reqs as [| rq reqs IH]; intros i read tr; cbn [read_loop length];
    [cbn [snd]; lia |].
  repeat match goal with
         | |- context [if ?b then _ else _] => destruct b
         end;
    try (cbn [snd]; rewrite ?round_trips_app; cbn; lia).
  - etransitivity; [apply IH |]. rewrite round_trips_app. cbn. lia.
  - etransitivity; [apply IH |]. rewrite round_trips_app. cbn. lia.
Qed.

Lemma read_loop_trace_prefix w : forall reqs i read tr,
  exists tr', snd (read_loop w i reqs read tr) = tr ++ tr'.
Proof.
  induction reqs as [| rq reqs IH]; intros i read tr; cbn [read_loop].
  { exists []. rewrite app_nil_r. reflexivity. }
  repeat match goal with
         | |- context [if ?b then _ else _] => destruct b
         end;
    try (cbn [snd]; eexists; reflexivity);
    try (exists []; rewrite app_nil_r; reflexivity).
  - destruct (IH (S i) (to_ssize_t (read + size rq))
                 (tr ++ [ev_memset read (size rq)])) as [tr' ->].
    rewrite <- app_assoc. eexists. reflexivity.
  - destruct (IH (S i) (to_ssize_t (read + get_read_reply w i))
                 (tr ++ exchange i)) as [tr' ->].
    rewrite <- app_assoc. eexists. reflexivity.
Qed.

(** X18. The calls of one read, when the query stores no more than the
    [max_count] descriptors it was given room for: the query comes first,
    at most [max_count] packets are sent, and the fallback is called at
    most once, as the last call, its answer being the result. *)
Theorem cfs_pread_sock_calls (w : sdk_t) (count offset : Z) :
  fst (cfs_read_requests w) <= Z.of_nat max_count ->
  hd_error (snd (cfs_pread_sock w count offset))
  = Some (ev_read_requests count offset) /\
  (round_trips (snd (cfs_pread_sock w count offset)) <= max_count)%nat /\
  (fallback_calls (snd (cfs_pread_sock w count offset)) <= 1)%nat /\
  (fallback_calls (snd (cfs_pread_sock w count offset)) = 1%nat ->
   last (snd (cfs_pread_sock w count offset))
   = Some (ev_cfs_pread count offset) /\
   fst (cfs_pread_sock w count offset) = cfs_pread w).
Proof.
  intros _.
  pose proof (fast_path_no_fallback w count offset) as Hnf.
  unfold cfs_pread_sock.
  destruct (fast_path w count offset) as [read tr] eqn:Hfp. cbn [snd] in Hnf.
  assert ((exists tr', tr = ev_read_requests count offset :: tr') /\
          (round_trips tr <= max_count)%nat) as [[tr' ->] Hrt].
  { unfold fast_path in Hfp.
    destruct (cfs_read_requests w) as [req_count req].
    pose proof (read_loop_trace_prefix w
                  (firstn (Z.to_nat req_count) (firstn max_count req))
                  0%nat 0 [ev_read_requests count offset]) as [tr' Hp].
    pose proof (read_loop_round_trips w
                  (firstn (Z.to_nat req_count) (firstn max_count req))
                  0%nat 0 [ev_read_requests count offset]) as Hr.
    rewrite Hfp in Hp, Hr. cbn [snd] in Hp, Hr. split.
    - exists tr'. exact Hp.
    - etransitivity; [exact Hr |]. rewrite !length_firstn.
      change (round_trips [ev_read_requests count offset]) with 0%nat.
      unfold max_count. lia. }
  destruct (to_size_t read <? count); cbn [fst snd].
  - split; [reflexivity |].
    rewrite round_trips_app, fallback_calls_app, Hnf.
    change (round_trips [ev_cfs_pread count offset]) with 0%nat.
    change (fallback_calls [ev_cfs_pread count offset]) with 1%nat.
    split; [lia |]. split; [lia |]. intros _.
    split; [| reflexivity].
    apply last_snoc.
  - split; [reflexivity |]. split; [exact Hrt |]. rewrite Hnf.
    split; [lia | discriminate].
Qed.

Lemma cfs_pread_sock_calls_witness :
  Nat.le
    (round_trips
       (snd (cfs_pread_sock
               (mk_sdk (2, [mk_req 0 4096 7 1 0 (cstr "10.0.0.1") 17030;
                            mk_req 4096 4096 8 2 0 (cstr "10.0.0.2") 17030])
                       (fun _ => true) (fun _ => 5) (fun _ => 0)
                       (fun i => match i with O => 4096 | _ => 100 end)
                       8192) 8192 0)))
    max_count /\
  fst (cfs_pread_sock
         (mk_sdk (2, [mk_req 0 4096 7 1 0 (cstr "10.0.0.1") 17030;
                      mk_req 4096 4096 8 2 0 (cstr "10.0.0.2") 17030])
                 (fun _ => true) (fun _ => 5) (fun _ => 0)
                 (fun i => match i with O => 4096 | _ => 100 end)
                 8192) 8192 0) = 8192.
Proof.
  destruct (cfs_pread_sock_calls
              (mk_sdk (2, [mk_req 0 4096 7 1 0 (cstr "10.0.0.1") 17030;
                           mk_req 4096 4096 8 2 0 (cstr "10.0.0.2") 17030])
                      (fun _ => true) (fun _ => 5) (fun _ => 0)
                      (fun i => match i with O => 4096 | _ => 100 end)
                      8192) 8192 0)
    as (_ & H2 & _ & H4).
  - unfold max_count. simpl. lia.
  - split; [exact H2 |]. apply H4. reflexivity.
Defined.

(** The loop over descriptors that are holes or are served: it goes
    through all of them, zero-filling for the former and exchanging
    packets for the latter. *)
Lemma read_loop_holes_served w : forall reqs i read tr,
  (forall k rq, reqs !! k = Some rq -> hole rq \/ served w (i + k) rq) ->
  0 <= read -> read + total_size reqs <= SSIZE_MAX ->
  exists tr',
    read_loop w i reqs read tr = (read + total_size reqs, tr ++ tr') /\
    fallback_calls tr' = 0%nat /\
    round_trips tr' = length (with_data reqs) /\
    List.filter is_memset tr' = memsets reqs read.
Proof.
  induction reqs as [| rq reqs IH]; intros i read tr H Hr Hmax.
  - exists []. cbn. rewrite Z.add_0_r, app_nil_r. auto.
  - assert (forall k rq', reqs !! k = Some rq' ->
                          hole rq' \/ served w (S i + k) rq') as H'.
    { intros k rq' Hk. replace (S i + k)%nat with (i + S k)%nat by lia.
      apply H. exact Hk. }
    pose proof (total_size_holes_served w reqs (S i) H') as Hpos.
    change (total_size (rq :: reqs)) with (size rq + total_size reqs) in *.
    unfold SSIZE_MAX in *. cbn [read_loop with_data List.filter memsets].
    destruct (H 0%nat rq eq_refl)
      as [(Hsz & Hp) | (Hsz & Hp & Hpk & Hconn & Hwr & Hre)].
    + (* a hole *)
      rewrite Hp. assert ((size rq =? 0) = false) as -> by lia.
      cbn [Z.eqb negb].
      rewrite to_ssize_t_id by (unfold is_ssize_t, SSIZE_MAX; lia).
      destruct (IH (S i) (read + size rq) (tr ++ [ev_memset read (size rq)])
                   H' ltac:(lia) ltac:(unfold SSIZE_MAX; lia))
        as (tr' & -> & Hf & Hrt & Hm).
      exists (ev_memset read (size rq) :: tr').
      rewrite <- app_assoc, Z.add_assoc. cbn [app].
      split; [reflexivity |]. split; [exact Hf |]. split; [exact Hrt |].
      cbn [List.filter is_memset]. rewrite Hm. reflexivity.
    + (* a descriptor with data, served *)
      rewrite Nat.add_0_r in *. rewrite Hre.
      apply Z.eqb_neq in Hp. rewrite Hp, Hpk.
      assert ((size rq =? 0) = false) as -> by lia.
      assert ((get_conn w i <? 0) = false) as -> by lia.
      assert ((write_sock w i <? 0) = false) as -> by lia.
      assert ((size rq <? 0) = false) as -> by lia.
      assert (to_size_t (size rq) = size rq) as ->.
      { unfold to_size_t. apply Z.mod_small. lia. }
      rewrite Z.eqb_refl. cbn [negb].
      rewrite to_ssize_t_id by (unfold is_ssize_t, SSIZE_MAX; lia).
      destruct (IH (S i) (read + size rq) (tr ++ exchange i)
                   H' ltac:(lia) ltac:(unfold SSIZE_MAX; lia))
        as (tr' & -> & Hf & Hrt & Hm).
      exists (exchange i ++ tr').
      rewrite <- app_assoc, Z.add_assoc.
      split; [reflexivity |].
      rewrite fallback_calls_app, round_trips_app, List.filter_app, Hf, Hrt, Hm.
      cbn [length]. split; [reflexivity |]. split; reflexivity.
Qed.

(** X19. A range made of holes and of descriptors with data: when every
    descriptor of the query is either a hole or is served with exactly
    its length, and the lengths add up to the [N] bytes asked for, the
    call returns [N] without the fallback; it uses one socket round trip
    per descriptor with data, and zero-fills each hole at the place in
    the buffer that the lengths before it give. *)
Theorem cfs_pread_sock_holes (w : sdk_t) (N offset : Z)
        (reqs : list cfs_read_req_t) :
  cfs_read_requests w = (Z.of_nat (length reqs), reqs) ->
  (length reqs <= max_count)%nat ->
  (forall k rq, reqs !! k = Some rq -> hole rq \/ served w k rq) ->
  total_size reqs = N -> N <= SSIZE_MAX ->
  fst (cfs_pread_sock w N offset) = N /\
  fallback_calls (snd (cfs_pread_sock w N offset)) = 0%nat /\
  round_trips (snd (cfs_pread_sock w N offset)) = length (with_data reqs) /\
  List.filter is_memset (snd (cfs_pread_sock w N offset)) = memsets reqs 0.
Proof.
  intros Hq Hlen Hall Hsum Hmax.
  pose proof (total_size_holes_served w reqs 0%nat Hall) as Hpos.
  unfold cfs_pread_sock, fast_path. rewrite Hq, Nat2Z.id.
  rewrite (firstn_all2 (n := max_count)) by exact Hlen.
  rewrite firstn_all.
  destruct (read_loop_holes_served w reqs 0%nat 0
              [ev_read_requests N offset] Hall ltac:(lia) ltac:(lia))
    as (tr' & -> & Hf & Hrt & Hm).
  rewrite Z.add_0_l, Hsum.
  assert (to_size_t N = N) as ->.
  { unfold to_size_t. apply Z.mod_small. unfold SSIZE_MAX in Hmax. lia. }
  rewrite Z.ltb_irrefl. cbn [fst snd].
  rewrite fallback_calls_app, round_trips_app, List.filter_app, Hf, Hrt, Hm.
  repeat split; reflexivity.
Qed.

Lemma cfs_pread_sock_holes_witness :
  fst (cfs_pread_sock
         (mk_sdk (3, [mk_req 0 4096 7 1 0 (cstr "10.0.0.1") 17030;
                      mk_req 4096 8192 0 0 0 [] 0;
                      mk_req 12288 4096 8 2 0 (cstr "10.0.0.2") 17030])
                 (fun _ => true) (fun _ => 5) (fun _ => 0) (fun _ => 4096)
                 (-5)) 16384 0) = 16384 /\
  List.filter is_memset
    (snd (cfs_pread_sock
            (mk_sdk (3, [mk_req 0 4096 7 1 0 (cstr "10.0.0.1") 17030;
                         mk_req 4096 8192 0 0 0 [] 0;
                         mk_req 12288 4096 8 2 0 (cstr "10.0.0.2") 17030])
                    (fun _ => true) (fun _ => 5) (fun _ => 0) (fun _ => 4096)
                    (-5)) 16384 0))
  = [ev_memset 4096 8192].
Proof.
  destruct (cfs_pread_sock_holes
              (mk_sdk (3, [mk_req 0 4096 7 1 0 (cstr "10.0.0.1") 17030;
                           mk_req 4096 8192 0 0 0 [] 0;
                           mk_req 12288 4096 8 2 0 (cstr "10.0.0.2") 17030])
                      (fun _ => true) (fun _ => 5) (fun _ => 0)
                      (fun _ => 4096) (-5))
              16384 0
              [mk_req 0 4096 7 1 0 (cstr "10.0.0.1") 17030;
               mk_req 4096 8192 0 0 0 [] 0;
               mk_req 12288 4096 8 2 0 (cstr "10.0.0.2") 17030])
    as (H1 & _ & _ & H4).
  - reflexivity.
  - unfold max_count. simpl. lia.
  - intros [| [| [| k]]] rq Hk; try discriminate Hk;
      injection Hk as <-; unfold hole, served; cbn; [right | left | right];
      lia.
  - reflexivity.
  - unfold SSIZE_MAX. lia.
  - split; [exact H1 | exact H4].
Defined.
End HybridMore.

(** ** Configuration handler *)

Section ConfigMore.
Import Config.

Lemma strcmp_eq_eq s t : strcmp_eq s t = true -> s = t.
Proof.
  revert t. induction s as [| c s IH]; intros [| d t] H; simpl in H;
    try reflexivity; try discriminate.
  apply andb_true_iff in H as [Hc H]. apply Ascii.eqb_eq in Hc.
  rewrite (IH _ H), Hc. reflexivity.
Qed.

Lemma MATCH_eq section name s n :
  MATCH section name s n = true -> section = cstr s /\ name = cstr n.
Proof.
  unfold MATCH. intros H. apply andb_true_iff in H as [H1 H2].
  split; apply strcmp_eq_eq; assumption.
Qed.

(** X20. Entries of different keys are handled independently: the
    configuration after two of them is the same in either order, and
    what the handler returns for an entry does not depend on the
    configuration it is given. *)
Theorem config_handler_commutes (ok : bool) (c : client_config_t)
        (s1 n1 v1 s2 n2 v2 : cstring) :
  s1 <> s2 \/ n1 <> n2 ->
  snd (config_handler ok (snd (config_handler ok c s1 n1 v1)) s2 n2 v2)
  = snd (config_handler ok (snd (config_handler ok c s2 n2 v2)) s1 n1 v1) /\
  fst (config_handler ok (snd (config_handler ok c s1 n1 v1)) s2 n2 v2)
  = fst (config_handler ok c s2 n2 v2).
Proof.
  intros Hne. unfold config_handler.
  repeat match goal with
         | |- context [if MATCH ?s ?n ?k ?m then _ else _] =>
             let H := fresh "HM" in destruct (MATCH s n k m) eqn:H
         end;
    try (split; reflexivity);
    exfalso;
    repeat match goal with
           | H : MATCH _ _ _ _ = true |- _ =>
               apply MATCH_eq in H; destruct H
           end;
    subst; destruct Hne as [Hne | Hne]; apply Hne; reflexivity.
Qed.

Lemma config_handler_commutes_witness :
  snd (config_handler true
         (snd (config_handler true (mk_config None None None None None)
                              [] (cstr "mountPoint") (cstr "/mnt/cfs")))
         [] (cstr "logLevel") (cstr "debug"))
  = snd (config_handler true
           (snd (config_handler true (mk_config None None None None None)
                                [] (cstr "logLevel") (cstr "debug")))
           [] (cstr "mountPoint") (cstr "/mnt/cfs")).
Proof.
  apply (config_handler_commutes true (mk_config None None None None None)
           [] (cstr "mountPoint") (cstr "/mnt/cfs")
           [] (cstr "logLevel") (cstr "debug")).
  right. discriminate.
Defined.

(** X21. An entry given twice: the later value replaces the earlier one,
    and the configuration is the one the later entry alone would give. *)
Theorem config_handler_last_wins (ok : bool) (c : client_config_t)
        (section name v1 v2 : cstring) :
  config_handler ok (snd (config_handler ok c section name v1))
                 section name v2
  = config_handler ok c section name v2.
Proof.
  unfold config_handler.
  repeat match goal with
         | |- context [if MATCH ?s ?n ?k ?m then _ else _] =>
             destruct (MATCH s n k m)
         end;
    reflexivity.
Qed.
End ConfigMore.

(** ** Version test *)

Section VersionMore.
Local Open Scope Z_scope.

Lemma strtol_digits_decimal u : forall acc rest,
  isdigit (hd NUL rest) = false ->
  strtol_digits (decimal_chars u ++ rest) (Z.of_nat acc)
  = Z.of_nat (Nat.of_uint_acc u acc).
Proof.
  induction u as [| u IH | u IH | u IH | u IH | u IH | u IH | u IH | u IH
                  | u IH | u IH]; intros acc rest Hrest;
    cbn [decimal_chars app Nat.of_uint_acc].
  1: { destruct rest as [| c rest]; [reflexivity |].
       cbn [hd] in Hrest. cbn [strtol_digits]. rewrite Hrest. reflexivity. }
  all: rewrite <- (IH _ rest Hrest), Nat.tail_mul_spec;
    cbn [strtol_digits];
    match goal with
    | |- context [isdigit ?c] => change (isdigit c) with true
    end;
    cbv iota; f_equal;
    match goal with
    | |- context [Z.of_nat (nat_of_ascii ?c)] =>
        let v := eval vm_compute in (Z.of_nat (nat_of_ascii c)) in
        change (Z.of_nat (nat_of_ascii c)) with v
    end;
    lia.
Qed.

Lemma strtol10_decimal u rest :
  u <> Decimal.Nil -> isdigit (hd NUL rest) = false ->
  strtol10 (decimal_chars u ++ rest)
  = Z.min SSIZE_MAX (Z.of_nat (Nat.of_uint u)).
Proof.
  intros Hu Hrest.
  pose proof (strtol_digits_decimal u 0%nat rest Hrest) as Hd.
  change (Z.of_nat 0) with 0 in Hd.
  change (Nat.of_uint_acc u 0) with (Nat.of_uint u) in Hd.
  assert (strtol10 (decimal_chars u ++ rest)
          = Z.max (- 2 ^ 63)
                  (Z.min SSIZE_MAX
                         (strtol_digits (decimal_chars u ++ rest) 0))) as ->.
  { destruct u; [congruence | ..]; reflexivity. }
  rewrite Hd. unfold SSIZE_MAX. lia.
Qed.

Lemma atoi_decimal u rest :
  u <> Decimal.Nil -> isdigit (hd NUL rest) = false ->
  Z.of_nat (Nat.of_uint u) < 2 ^ 31 ->
  atoi (decimal_chars u ++ rest) = Z.of_nat (Nat.of_uint u).
Proof.
  intros Hu Hrest Hlt. unfold atoi.
  rewrite (strtol10_decimal u rest Hu Hrest).
  rewrite Z.min_r by (unfold SSIZE_MAX; lia).
  apply to_int_id. unfold is_int, INT_MIN, INT_MAX. lia.
Qed.

Lemma strstr_dot_decimal u x :
  strstr_dot (decimal_chars u ++ "."%char :: x) = Some ("."%char :: x) /\
  cut_at_dot (decimal_chars u ++ "."%char :: x) = decimal_chars u.
Proof.
  induction u as [| u [IH1 IH2] | u [IH1 IH2] | u [IH1 IH2] | u [IH1 IH2]
                  | u [IH1 IH2] | u [IH1 IH2] | u [IH1 IH2] | u [IH1 IH2]
                  | u [IH1 IH2] | u [IH1 IH2]];
    [split; reflexivity | ..];
    cbn [decimal_chars app strstr_dot cut_at_dot];
    match goal with
    | |- context [Ascii.eqb ?c "."] => change (Ascii.eqb c ".") with false
    end;
    cbv iota; rewrite IH1, IH2; split; reflexivity.
Qed.

Lemma strstr_dot_no_dot u :
  strstr_dot (decimal_chars u) = None.
Proof.
  induction u; cbn [decimal_chars strstr_dot]; [reflexivity | ..];
    match goal with
    | |- context [Ascii.eqb ?c "."] => change (Ascii.eqb c ".") with false
    end;
    cbv iota; assumption.
Qed.

(** X22. On a version written as decimal numerals [M.m], possibly
    followed by more (as in [2.28.1] or [2.28-10]), the test answers
    whether the version is 2.28 or later: [M > 2], or [M = 2] and
    [m >= 28]. A version without a dot counts as minor version 0. *)
Theorem has_renameat2_decimal (major minor : Decimal.uint) (rest : cstring) :
  major <> Decimal.Nil -> minor <> Decimal.Nil ->
  Z.of_nat (Nat.of_uint major) < 2 ^ 31 ->
  Z.of_nat (Nat.of_uint minor) < 2 ^ 31 ->
  isdigit (hd NUL rest) = false ->
  has_renameat2 true
    (decimal_chars major ++ "."%char :: decimal_chars minor ++ rest)
  = (2 <? Z.of_nat (Nat.of_uint major))
    || (Z.of_nat (Nat.of_uint major) =? 2)
       && (28 <=? Z.of_nat (Nat.of_uint minor)) /\
  has_renameat2 true (decimal_chars major)
  = (2 <? Z.of_nat (Nat.of_uint major)).
Proof.
  intros HM Hm HMlt Hmlt Hrest.
  pose proof (atoi_decimal major [] HM eq_refl HMlt) as Hmaj.
  rewrite app_nil_r in Hmaj.
  unfold has_renameat2, strdup. split.
  - destruct (strstr_dot_decimal major (decimal_chars minor ++ rest))
      as [-> ->].
    rewrite Hmaj. cbn [skipn length].
    assert ((1 <? S (length (decimal_chars minor ++ rest)))%nat = true) as ->.
    { apply Nat.ltb_lt. rewrite length_app.
      destruct minor; [congruence | ..]; simpl; lia. }
    rewrite skipn_O, (atoi_decimal minor rest Hm Hrest Hmlt). reflexivity.
  - rewrite strstr_dot_no_dot, Hmaj.
    change (28 <=? 0) with false. rewrite andb_false_r, orb_false_r.
    reflexivity.
Qed.

Lemma has_renameat2_decimal_witness :
  has_renameat2 true (cstr "2.28.1") = true /\
  has_renameat2 true (cstr "2") = false.
Proof.
  destruct (has_renameat2_decimal (Decimal.D2 Decimal.Nil)
              (Decimal.D2 (Decimal.D8 Decimal.Nil)) (cstr ".1"))
    as [H1 H2].
  - discriminate.
  - discriminate.
  - vm_compute. reflexivity.
  - vm_compute. reflexivity.
  - reflexivity.
  - split; [exact H1 | exact H2].
Defined.
End VersionMore.
